(** * The question-answering pipeline: enhancer, retriever, generator, orchestrator

    A shallow embedding of [handler/query_enhancer.py], [handler/retriever.py],
    [handler/generator.py] and [handler/run.py], followed by the properties of
    the pipeline that are proved about it.

    Conventions.
    - A Python [str] is a sequence of Unicode code points: [list N].
    - A Python exception is a value of [exn]; a call that may raise returns a
      [result].  [print] calls write to the console only and are left out.
    - The text-generation model, the embedder and the vector index are outside
      the repository.  They are oracles over the trace of the calls made so
      far (record [Services]); every call is appended to the trace, so that
      a claim that no call was issued is a statement about the trace. *)

From Stdlib Require Import ZArith NArith QArith List String Ascii Lia Permutation.
From Stdlib Require Import DecimalString Sorted.
From stdpp Require Import gmap list.

Local Open Scope N_scope.

(** ** Strings *)

Abbreviation str := (list N).

(** A literal: the code points of a Rocq string. *)
Definition py (s : string) : str := map N_of_ascii (list_ascii_of_string s).

(** The same with every apostrophe read as a double quote, to write JSON
    text. *)
Definition pyq (s : string) : str :=
  map (fun c => if c =? 39 then 34 else c) (py s).

Definition LF : N := 10.
Definition SPACE : N := 32.
Definition DQUOTE : N := 34.
Definition COMMA : N := 44.
Definition MINUS : N := 45.
Definition DOT : N := 46.
Definition SLASH : N := 47.
Definition COLON : N := 58.
Definition LBRACKET : N := 91.
Definition BACKSLASH : N := 92.
Definition RBRACKET : N := 93.
Definition LBRACE : N := 123.
Definition RBRACE : N := 125.

(** [str.isspace] on one code point; the class [\s] of [re] on a [str]
    pattern is the same set. *)
Definition is_space (c : N) : bool :=
  ((9 <=? c) && (c <=? 13)) || ((28 <=? c) && (c <=? 32))
  || (c =? 133) || (c =? 160) || (c =? 5760)
  || ((8192 <=? c) && (c <=? 8202))
  || (c =? 8232) || (c =? 8233) || (c =? 8239) || (c =? 8287) || (c =? 12288).

Fixpoint drop_while (p : N -> bool) (s : str) : str :=
  match s with
  | c :: s' => if p c then drop_while p s' else s
  | [] => []
  end.

Fixpoint span_while (p : N -> bool) (s : str) : str * str :=
  match s with
  | c :: s' =>
      if p c then let '(a, b) := span_while p s' in (c :: a, b) else ([], s)
  | [] => ([], [])
  end.

(** [s.strip()] *)
Definition strip (s : str) : str :=
  rev (drop_while is_space (rev (drop_while is_space s))).

(** [s.replace(a, b)] for one-character [a] and [b]. *)
Definition replace_char (a b : N) (s : str) : str :=
  map (fun c => if c =? a then b else c) s.

Fixpoint starts_with (p s : str) : bool :=
  match p, s with
  | [], _ => true
  | a :: p', b :: s' => (a =? b) && starts_with p' s'
  | _ :: _, [] => false
  end.

(** [sep.join(parts)] *)
Fixpoint join (sep : str) (parts : list str) : str :=
  match parts with
  | [] => []
  | [p] => p
  | p :: rest => p ++ sep ++ join sep rest
  end.

(** [str(n)] for a non-negative [int]. *)
Definition str_of_nat (n : nat) : str :=
  py (NilZero.string_of_uint (Nat.to_uint n)).

(** ** Regular-expression operations

    [re.sub(pattern, repl, s)] replaces the leftmost non-overlapping matches,
    scanning left to right.  The three patterns of the pipeline never match
    the empty string and their match at a position is determined by the text
    from that position on, so a pattern is given as a function from the
    remaining text to the length it consumes and the text it is replaced by.
    [skip] counts the characters of the current match still to be dropped. *)

Fixpoint re_sub (m : str -> option (nat * str)) (skip : nat) (s : str) : str :=
  match s with
  | [] => []
  | c :: s' =>
      match skip with
      | S k => re_sub m k s'
      | O =>
          match m s with
          | Some (S k, repl) => repl ++ re_sub m k s'
          | _ => c :: re_sub m 0 s'
          end
      end
  end.

(** The pattern [```json\n?|\n```], replaced by the empty string. *)
Definition fence_match (s : str) : option (nat * str) :=
  if starts_with (py "```json") s then
    if starts_with [LF] (drop 7 s) then Some (8%nat, []) else Some (7%nat, [])
  else if starts_with (LF :: py "```") s then Some (4%nat, [])
  else None.

(** The characters that may follow a backslash in the lookahead of the
    repair pattern: double quote, backslash, slash, b, f, n, r, t, u. *)
Definition is_escape_char (c : N) : bool :=
  (c =? DQUOTE) || (c =? BACKSLASH) || (c =? SLASH)
  || (c =? 98) || (c =? 102) || (c =? 110) || (c =? 114) || (c =? 116)
  || (c =? 117).

(** The pattern of FIX 1, a backslash under a negative lookahead for the
    characters above, replaced by the empty string: it matches a backslash
    at the end of the text or followed by any other character. *)
Definition invalid_escape_match (s : str) : option (nat * str) :=
  match s with
  | c :: rest =>
      if c =? BACKSLASH then
        match rest with
        | d :: _ => if is_escape_char d then None else Some (1%nat, [])
        | [] => Some (1%nat, [])
        end
      else None
  | [] => None
  end.

Definition is_closer (c : N) : bool := (c =? RBRACE) || (c =? RBRACKET).

(** The pattern [,\s*([\}\]])], replaced by its group 1 (the closer). *)
Definition trailing_comma_match (s : str) : option (nat * str) :=
  match s with
  | c :: rest =>
      if c =? COMMA then
        match drop_while is_space rest with
        | d :: _ =>
            if is_closer d
            then Some (S (S (length (fst (span_while is_space rest)))), [d])
            else None
        | [] => None
        end
      else None
  | [] => None
  end.

Fixpoint last_index (c : N) (s : str) : option nat :=
  match s with
  | [] => None
  | d :: s' =>
      match last_index c s' with
      | Some i => Some (S i)
      | None => if d =? c then Some O else None
      end
  end.

(** [re.search(r'\{.*\}', s, re.DOTALL)], the text of group 0.  The search
    tries the start positions from the left, so the match starts at the first
    opening brace; [.*] is greedy and, with DOTALL, crosses every character,
    so the match ends at the last closing brace after it.  When no closing
    brace follows the first opening brace none follows a later one either,
    and there is no match. *)
Definition search_braces (s : str) : option str :=
  match drop_while (fun c => negb (c =? LBRACE)) s with
  | [] => None
  | open :: rest =>
      match last_index RBRACE rest with
      | Some j => Some (open :: take (S j) rest)
      | None => None
      end
  end.

(** ** Exceptions *)

Inductive exn_class :=
| ValueError | JSONDecodeError | ValidationError | TypeError | TimeoutError
| ServiceError.

Record exn := Exn { exn_kind : exn_class; exn_str : str }.

Inductive result (A : Type) :=
| Ok (a : A)
| Raise (e : exn).
Arguments Ok {A} a.
Arguments Raise {A} e.

Definition is_ok {A} (r : result A) : bool :=
  match r with Ok _ => true | Raise _ => false end.

(** ** JSON values and [json.loads]

    The value [json.loads] returns: [None], a [bool], an [int], a [float], a
    [str], a [list] or a [dict].  A [float] keeps the text it was read from;
    its value is only needed for its truth value and is obtained through
    [Services].  A [dict] keeps its keys in insertion order, each key once. *)

#[warnings="-register-all"]
Inductive json :=
| JNull
| JBool (b : bool)
| JInt (z : Z)
| JFloat (lexeme : str)
| JString (s : str)
| JArray (items : list json)
| JObject (fields : list (str * json)).

(** [d[k] = v] *)
Fixpoint dict_set (k : str) (v : json) (d : list (str * json))
  : list (str * json) :=
  match d with
  | [] => [(k, v)]
  | (k', v') :: d' =>
      if bool_decide (k' = k) then (k', v) :: d'
      else (k', v') :: dict_set k v d'
  end.

(** [d.get(k)] *)
Fixpoint dict_get (k : str) (d : list (str * json)) : option json :=
  match d with
  | [] => None
  | (k', v) :: d' => if bool_decide (k' = k) then Some v else dict_get k d'
  end.

Module Json.

(** The decoder of the standard library in its default configuration
    (strict strings, the constants NaN, Infinity and -Infinity accepted),
    written after the scanner of CPython.  A failure is [None]; the limits
    of the interpreter (recursion depth, length of an integer literal) are
    not part of the model. *)

Definition is_ws (c : N) : bool :=
  (c =? SPACE) || (c =? 9) || (c =? LF) || (c =? 13).

Definition is_digit (c : N) : bool := (48 <=? c) && (c <=? 57).

Definition skip_ws (s : str) : str := drop_while is_ws s.

Definition hex_val (c : N) : option N :=
  if is_digit c then Some (c - 48)
  else if (97 <=? c) && (c <=? 102) then Some (c - 87)
  else if (65 <=? c) && (c <=? 70) then Some (c - 55)
  else None.

Definition hex4 (a b c d : N) : option N :=
  match hex_val a, hex_val b, hex_val c, hex_val d with
  | Some x, Some y, Some z, Some w => Some (((x * 16 + y) * 16 + z) * 16 + w)
  | _, _, _, _ => None
  end.

(** The character an escape letter stands for. *)
Definition unescape (c : N) : option N :=
  if c =? DQUOTE then Some DQUOTE
  else if c =? BACKSLASH then Some BACKSLASH
  else if c =? SLASH then Some SLASH
  else if c =? 98 then Some 8
  else if c =? 102 then Some 12
  else if c =? 110 then Some LF
  else if c =? 114 then Some 13
  else if c =? 116 then Some 9
  else None.

Definition is_high_surrogate (u : N) : bool := (55296 <=? u) && (u <=? 56319).
Definition is_low_surrogate (u : N) : bool := (56320 <=? u) && (u <=? 57343).
Definition join_surrogates (hi lo : N) : N :=
  65536 + (hi - 55296) * 1024 + (lo - 56320).

(** A low surrogate escape at the head of [s], and the text after it. *)
Definition low_surrogate_escape (s : str) : option (N * str) :=
  match s with
  | b :: u :: g1 :: g2 :: g3 :: g4 :: rest =>
      if (b =? BACKSLASH) && (u =? 117) then
        match hex4 g1 g2 g3 g4 with
        | Some lo => if is_low_surrogate lo then Some (lo, rest) else None
        | None => None
        end
      else None
  | _ => None
  end.

Definition cons_char (c : N) (r : option (str * str)) : option (str * str) :=
  match r with
  | Some (body, rest) => Some (c :: body, rest)
  | None => None
  end.

(** The string whose opening quote has been read: its decoded content and
    the text after its closing quote. *)
Fixpoint scanstring (s : str) : option (str * str) :=
  match s with
  | [] => None
  | c :: r =>
      if c =? DQUOTE then Some ([], r)
      else if c =? BACKSLASH then
        match r with
        | [] => None
        | e :: r1 =>
            if e =? 117 then
              match r1 with
              | h1 :: h2 :: h3 :: h4 :: r2 =>
                  match hex4 h1 h2 h3 h4 with
                  | Some u =>
                      match r2 with
                      | b :: u' :: g1 :: g2 :: g3 :: g4 :: r3 =>
                          match
                            (if is_high_surrogate u
                             then low_surrogate_escape r2 else None)
                          with
                          | Some (lo, _) =>
                              cons_char (join_surrogates u lo) (scanstring r3)
                          | None => cons_char u (scanstring r2)
                          end
                      | _ => cons_char u (scanstring r2)
                      end
                  | None => None
                  end
              | _ => None
              end
            else
              match unescape e with
              | Some d => cons_char d (scanstring r1)
              | None => None
              end
        end
      else if c <? 32 then None
      else cons_char c (scanstring r)
  end.

Fixpoint digits_value (acc : Z) (ds : str) : Z :=
  match ds with
  | [] => acc
  | d :: ds' => digits_value (acc * 10 + Z.of_N (d - 48))%Z ds'
  end.

(** The integer part: a single 0, or a digit from 1 to 9 and the digits
    after it. *)
Definition scan_int (s : str) : option (str * str) :=
  match s with
  | c :: r =>
      if c =? 48 then Some ([c], r)
      else if is_digit c then
        let '(ds, r') := span_while is_digit r in Some (c :: ds, r')
      else None
  | [] => None
  end.

(** The fraction: a dot and at least one digit, or nothing. *)
Definition scan_frac (s : str) : str * str :=
  match s with
  | p :: d :: r =>
      if (p =? DOT) && is_digit d then
        let '(ds, r') := span_while is_digit r in (p :: d :: ds, r')
      else ([], s)
  | _ => ([], s)
  end.

(** The exponent: e or E, an optional sign and at least one digit, or
    nothing. *)
Definition scan_exp (s : str) : str * str :=
  match s with
  | e :: r =>
      if (e =? 101) || (e =? 69) then
        let '(sign, r1) :=
          match r with
          | g :: r' => if (g =? MINUS) || (g =? 43) then ([g], r') else ([], r)
          | [] => ([], r)
          end in
        match span_while is_digit r1 with
        | (d :: ds, r2) => (e :: sign ++ d :: ds, r2)
        | ([], _) => ([], s)
        end
      else ([], s)
  | [] => ([], s)
  end.

Definition match_number (s : str) : option (json * str) :=
  let '(neg, s1) :=
    match s with
    | c :: r => if c =? MINUS then (true, r) else (false, s)
    | [] => (false, s)
    end in
  match scan_int s1 with
  | Some (ip, r1) =>
      let '(fp, r2) := scan_frac r1 in
      let '(ep, r3) := scan_exp r2 in
      match fp, ep with
      | [], [] =>
          let z := digits_value 0 ip in
          Some (JInt (if neg then - z else z)%Z, r3)
      | _, _ =>
          Some (JFloat ((if neg then [MINUS] else []) ++ ip ++ fp ++ ep), r3)
      end
  | None => None
  end.

(** A named constant at the head of [s]. *)
Definition match_constant (s : str) : option (json * str) :=
  if starts_with (py "null") s then Some (JNull, drop 4 s)
  else if starts_with (py "true") s then Some (JBool true, drop 4 s)
  else if starts_with (py "false") s then Some (JBool false, drop 5 s)
  else if starts_with (py "NaN") s then Some (JFloat (py "NaN"), drop 3 s)
  else if starts_with (py "Infinity") s
  then Some (JFloat (py "Infinity"), drop 8 s)
  else if starts_with (py "-Infinity") s
  then Some (JFloat (py "-Infinity"), drop 9 s)
  else None.

(** [scan_once]: one JSON term at the head of [s].  [parse_members] and
    [parse_items] are the loops of the object and of the array parser,
    entered after the opening bracket when the container is not empty;
    [acc] holds what has been read so far. *)
Fixpoint scan_once (fuel : nat) (s : str) {struct fuel}
  : option (json * str) :=
  match fuel with
  | O => None
  | S f =>
      match s with
      | [] => None
      | c :: r =>
          if c =? DQUOTE then
            match scanstring r with
            | Some (body, r') => Some (JString body, r')
            | None => None
            end
          else if c =? LBRACE then
            match skip_ws r with
            | d :: r' =>
                if d =? RBRACE then Some (JObject [], r')
                else parse_members f (d :: r') []
            | [] => None
            end
          else if c =? LBRACKET then
            match skip_ws r with
            | d :: r' =>
                if d =? RBRACKET then Some (JArray [], r')
                else parse_items f (d :: r') []
            | [] => None
            end
          else
            match match_constant s with
            | Some res => Some res
            | None => match_number s
            end
      end
  end
with parse_members (fuel : nat) (s : str) (acc : list (str * json))
       {struct fuel} : option (json * str) :=
  match fuel with
  | O => None
  | S f =>
      match s with
      | q :: r =>
          if q =? DQUOTE then
            match scanstring r with
            | Some (key, r1) =>
                match skip_ws r1 with
                | colon :: r2 =>
                    if colon =? COLON then
                      match scan_once f (skip_ws r2) with
                      | Some (v, r3) =>
                          match skip_ws r3 with
                          | d :: r4 =>
                              if d =? RBRACE
                              then Some (JObject (dict_set key v acc), r4)
                              else if d =? COMMA
                              then parse_members f (skip_ws r4)
                                     (dict_set key v acc)
                              else None
                          | [] => None
                          end
                      | None => None
                      end
                    else None
                | [] => None
                end
            | None => None
            end
          else None
      | [] => None
      end
  end
with parse_items (fuel : nat) (s : str) (acc : list json)
       {struct fuel} : option (json * str) :=
  match fuel with
  | O => None
  | S f =>
      match scan_once f s with
      | Some (v, r1) =>
          match skip_ws r1 with
          | d :: r2 =>
              if d =? RBRACKET then Some (JArray (acc ++ [v]), r2)
              else if d =? COMMA
              then parse_items f (skip_ws r2) (acc ++ [v])
              else None
          | [] => None
          end
      | None => None
      end
  end.

(** [JSONDecoder.decode]: leading whitespace, one term, trailing
    whitespace, end of text.  A text that starts with a byte order mark is
    refused.  The parser consumes text between two decrements of the fuel,
    so twice the length of the text is enough (lemma [decode_fuel_enough]). *)
Definition decode (s : str) : option json :=
  match s with
  | 65279 :: _ => None
  | _ =>
      match scan_once (2 * length s + 2) (skip_ws s) with
      | Some (v, rest) =>
          match skip_ws rest with
          | [] => Some v
          | _ :: _ => None
          end
      | None => None
      end
  end.

End Json.

Definition is_dict (v : json) : bool :=
  match v with JObject _ => true | _ => false end.

(** ** Floating-point numbers

    A Python [float] is a finite value, an infinity or NaN.  A finite value
    is the rational it denotes, which makes the comparisons exact; the
    rounding operations are part of [Services].  A comparison with NaN is
    false. *)

Inductive pyfloat :=
| Finite (q : Q)
| PosInf
| NegInf
| NaN.

(** [a < b] *)
Definition flt (a b : pyfloat) : bool :=
  match a, b with
  | NaN, _ | _, NaN => false
  | Finite x, Finite y => negb (Qle_bool y x)
  | NegInf, NegInf => false
  | NegInf, _ => true
  | PosInf, _ => false
  | Finite _, PosInf => true
  | Finite _, NegInf => false
  end.

(** [a > b] *)
Definition fgt (a b : pyfloat) : bool := flt b a.

(** [a != 0.0] *)
Definition fnonzero (a : pyfloat) : bool :=
  match a with
  | Finite x => negb (Qeq_bool x 0)
  | _ => true
  end.

(** ** Data model *)

(** [EnhancedQuery], the validated model of [handler/query_enhancer.py]. *)
Record EnhancedQuery := {
  intent : str;
  entities : list str;
  keywords : option (list str);
  conditions : option (list str);
  raw_query : str
}.

(** The three keys of a match's metadata that the pipeline reads; a key the
    mapping does not have is [None]. *)
Record Metadata := {
  text_content : option str;
  document_name : option str;
  section_hierarchy : option (list str)
}.

(** One match of the index response.  [match_id] and [match_score] are read
    with [get], so either may be missing. *)
Record Match := {
  match_id : option str;
  match_score : option pyfloat;
  match_metadata : Metadata
}.

(** One element of the list the retriever returns. *)
Record Chunk := {
  chunk_score : pyfloat;
  chunk_metadata : Metadata
}.

Record SparseVector := {
  sparse_indices : list Z;
  sparse_values : list pyfloat
}.

(** The result of the embedder for one text: the dense vector and the
    lexical weights, a token index and a weight each. *)
Record Embedding := {
  dense_vecs : list pyfloat;
  lexical_weights : list (Z * pyfloat)
}.

(** The arguments of one query of the index. *)
Record IndexRequest := {
  req_vector : list pyfloat;
  req_sparse_vector : SparseVector;
  req_top_k : Z;
  req_namespace : str;
  req_include_metadata : bool
}.

(** ** External services and the trace of calls *)

Inductive event :=
| LlmCall (prompt : str) (max_output_tokens : nat)
| EmbedCall (text : str)
| IndexCall (req : IndexRequest).

Abbreviation trace := (list event).

(** What lies outside the four modules.  The three services answer a call
    from the calls made before it; an answer is a value or an exception.
    The prompt templates are the two fixed few-shot texts with the holes of
    their f-strings as arguments.  [py_repr] is [str] on a value that is not
    a [str]; the two error texts are the messages of the decoder and of the
    validator. *)
Record Services := {
  llm_generate : trace -> str -> nat -> result str;
  embedder_encode : trace -> str -> result Embedding;
  index_query : trace -> IndexRequest -> result (list Match);
  index_namespace : str;
  fmul : pyfloat -> pyfloat -> pyfloat;
  fsub : pyfloat -> pyfloat -> pyfloat;
  float_of_lexeme : str -> pyfloat;
  py_repr : json -> str;
  json_error_text : str -> str;
  validation_error_text : json -> str;
  enhancer_prompt : str -> str;
  generator_prompt : str -> str -> str
}.

(** A computation that reads and extends the trace and may raise. *)
Definition M (A : Type) : Type := trace -> result A * trace.

Definition ret {A} (a : A) : M A := fun tr => (Ok a, tr).

Definition lift {A} (r : result A) : M A := fun tr => (r, tr).

Definition bind {A B} (m : M A) (k : A -> M B) : M B :=
  fun tr =>
    match m tr with
    | (Ok a, tr') => k a tr'
    | (Raise e, tr') => (Raise e, tr')
    end.

(** [try: m  except Exception as e: h e] *)
Definition try_except {A} (m : M A) (h : exn -> M A) : M A :=
  fun tr =>
    match m tr with
    | (Ok a, tr') => (Ok a, tr')
    | (Raise e, tr') => h e tr'
    end.

Notation "'let*' x ':=' m 'in' k" := (bind m (fun x => k))
  (at level 10, x pattern, m at level 100, k at level 200).

Definition call {A} (ev : event) (answer : trace -> result A) : M A :=
  fun tr => (answer tr, tr ++ [ev]).

(** The index queries recorded in a trace. *)
Definition index_calls (tr : trace) : list IndexRequest :=
  omap (fun ev => match ev with IndexCall r => Some r | _ => None end) tr.

(** The prompts sent to the text-generation model recorded in a trace. *)
Definition llm_calls (tr : trace) : list str :=
  omap (fun ev => match ev with LlmCall p _ => Some p | _ => None end) tr.

(** [json.loads] *)
Definition json_loads (env : Services) (s : str) : result json :=
  match Json.decode s with
  | Some v => Ok v
  | None => Raise (Exn JSONDecodeError (json_error_text env s))
  end.

(** [model.generate_content(prompt, generation_config=...).text]; the
    temperature is 0.1 in both callers. *)
Definition generate_content (env : Services) (prompt : str)
  (max_output_tokens : nat) : M str :=
  call (LlmCall prompt max_output_tokens)
       (fun tr => llm_generate env tr prompt max_output_tokens).

(** ** [handler/query_enhancer.py] *)

Module QueryEnhancerAgent.
Section Agent.
Context (env : Services).

Definition _extract_json (text : str) : result json :=
  match search_braces text with
  | None =>
      Raise (Exn ValueError
               (py "No JSON object found in the response string."))
  | Some json_str =>
      let json_str := re_sub trailing_comma_match 0 json_str in
      json_loads env json_str
  end.

Definition as_str (v : json) : option str :=
  match v with JString s => Some s | _ => None end.

Fixpoint as_str_items (l : list json) : option (list str) :=
  match l with
  | [] => Some []
  | v :: l' =>
      match as_str v, as_str_items l' with
      | Some s, Some r => Some (s :: r)
      | _, _ => None
      end
  end.

Definition as_str_list (v : json) : option (list str) :=
  match v with JArray l => as_str_items l | _ => None end.

(** A field [Optional[List[str]]] with default [None]. *)
Definition as_optional_str_list (o : option json)
  : option (option (list str)) :=
  match o with
  | None => Some None
  | Some JNull => Some None
  | Some v =>
      match as_str_list v with Some l => Some (Some l) | None => None end
  end.

(** The construction of [EnhancedQuery] from the keyword arguments
    [response_data]: the validation of pydantic (version
    2, the one that has [model_dump]).  [intent], [entities] and
    [raw_query] are required, a [str] field takes a [str] only, a list
    field a list of [str] only, and keys the model does not declare are
    ignored. *)
Definition validate (response_data : json) : result EnhancedQuery :=
  match response_data with
  | JObject d =>
      match dict_get (py "intent") d ≫= as_str,
            dict_get (py "entities") d ≫= as_str_list,
            as_optional_str_list (dict_get (py "keywords") d),
            as_optional_str_list (dict_get (py "conditions") d),
            dict_get (py "raw_query") d ≫= as_str
      with
      | Some i, Some e, Some k, Some c, Some r =>
          Ok {| intent := i; entities := e; keywords := k;
                conditions := c; raw_query := r |}
      | _, _, _, _, _ =>
          Raise (Exn ValidationError (validation_error_text env response_data))
      end
  | _ => Raise (Exn TypeError (py "argument after ** must be a mapping"))
  end.

Definition fallback (query : str) : EnhancedQuery :=
  {| intent := py "general_query"; entities := [query];
     keywords := None; conditions := None; raw_query := query |}.

Definition enhance_query (query : str) : M EnhancedQuery :=
  let prompt := enhancer_prompt env query in
  try_except
    (let* text := generate_content env prompt 512 in
     let* response_data := lift (_extract_json text) in
     lift (validate response_data))
    (fun e => ret (fallback query)).

End Agent.
End QueryEnhancerAgent.

(** ** [handler/retriever.py] *)

Definition hybrid_score_norm (env : Services) (dense : list pyfloat)
  (sparse : SparseVector) (alpha : pyfloat)
  : result (list pyfloat * SparseVector) :=
  if flt alpha (Finite 0) || fgt alpha (Finite 1) then
    Raise (Exn ValueError (py "Alpha must be between 0 and 1"))
  else
    let hs :=
      {| sparse_indices := sparse_indices sparse;
         sparse_values :=
           map (fun v => fmul env v (fsub env (Finite 1) alpha))
               (sparse_values sparse) |} in
    Ok (map (fun v => fmul env v alpha) dense, hs).

Module RetrieverAgent.
Section Agent.
Context (env : Services).

Definition nonempty {A} (l : list A) : bool :=
  match l with [] => false | _ :: _ => true end.

Definition _compose_search_query (enhanced_query : EnhancedQuery) : str :=
  let parts := [raw_query enhanced_query] ++ entities enhanced_query in
  let parts :=
    match keywords enhanced_query with
    | Some (k :: ks) => parts ++ k :: ks
    | _ => parts
    end in
  let parts :=
    match conditions enhanced_query with
    | Some (c :: cs) => parts ++ c :: cs
    | _ => parts
    end in
  join [SPACE] (List.filter nonempty parts).

(** The loop that keeps the first match of every id. *)
Fixpoint unique_loop (results : list Match) (seen_ids : gset (option str))
  (unique_results : list Match) : list Match :=
  match results with
  | [] => unique_results
  | res :: rest =>
      let chunk_id := match_id res in
      if bool_decide (chunk_id ∉ seen_ids)
      then unique_loop rest ({[chunk_id]} ∪ seen_ids) (unique_results ++ [res])
      else unique_loop rest seen_ids unique_results
  end.

Definition final_result (res : Match) : Chunk :=
  {| chunk_score := default (Finite 0) (match_score res);
     chunk_metadata := match_metadata res |}.

Definition retrieve_and_rerank (enhanced_query : EnhancedQuery)
  (top_k_initial top_k_final : Z) (alpha : pyfloat) : M (list Chunk) :=
  let search_query := _compose_search_query enhanced_query in
  let* result :=
    call (EmbedCall search_query)
         (fun tr => embedder_encode env tr search_query) in
  let dense_emb := dense_vecs result in
  let lw := lexical_weights result in
  let indices := map fst (List.filter (fun iv => fnonzero (snd iv)) lw) in
  let values := map snd (List.filter (fun iv => fnonzero (snd iv)) lw) in
  let sparse := {| sparse_indices := indices; sparse_values := values |} in
  let* weighted := lift (hybrid_score_norm env dense_emb sparse alpha) in
  let '(hdense, hsparse) := weighted in
  let req :=
    {| req_vector := hdense; req_sparse_vector := hsparse;
       req_top_k := top_k_final; req_namespace := index_namespace env;
       req_include_metadata := true |} in
  let* queried :=
    try_except
      (let* results := call (IndexCall req)
                            (fun tr => index_query env tr req) in
       ret (Some results))
      (fun e => ret None) in
  match queried with
  | None => ret []
  | Some [] => ret []
  | Some results =>
      let unique_results := unique_loop results ∅ [] in
      ret (map final_result unique_results)
  end.

End Agent.
End RetrieverAgent.

(** ** [handler/generator.py] *)

Module GeneratorAgent.
Section Agent.
Context (env : Services).

Definition _extract_json (text : str) : result json :=
  let text := re_sub fence_match 0 (strip text) in
  match search_braces text with
  | None =>
      Raise (Exn ValueError
               (py "No valid JSON object found in LLM response."))
  | Some json_str =>
      let json_str := re_sub invalid_escape_match 0 json_str in
      let json_str := replace_char LF SPACE json_str in
      let json_str := re_sub trailing_comma_match 0 json_str in
      json_loads env json_str
  end.

Definition not_found : json :=
  JObject
    [(py "decision", JString (py "Not Found"));
     (py "amount", JNull);
     (py "justification",
       JString
         (py "Could not find relevant information in the provided documents."));
     (py "clauses", JArray [])].

Definition error_answer (e : exn) : json :=
  JObject
    [(py "decision", JString (py "Error"));
     (py "amount", JNull);
     (py "justification",
       JString (py "Failed to generate a valid response: " ++ exn_str e));
     (py "clauses", JArray [])].

(** The text added to the context for the chunk at position [i]. *)
Definition chunk_context (i : nat) (chunk : Chunk) : str :=
  let metadata := chunk_metadata chunk in
  let content := default (py "N/A") (text_content metadata) in
  let document := default (py "Unknown") (document_name metadata) in
  let section_path :=
    join (py " > ") (default [py "General"] (section_hierarchy metadata)) in
  py "--- Context Chunk " ++ str_of_nat (i + 1) ++ py " ---" ++ [LF]
  ++ py "Document: " ++ document ++ [LF]
  ++ py "Section: " ++ section_path ++ [LF]
  ++ py "Content: " ++ content ++ [LF; LF].

Definition generate_answer (raw_query : str) (retrieved_chunks : list Chunk)
  : M json :=
  match retrieved_chunks with
  | [] => ret not_found
  | _ :: _ =>
      let context := concat (imap chunk_context retrieved_chunks) in
      let prompt := generator_prompt env context raw_query in
      try_except
        (let* text := generate_content env prompt 2048 in
         lift (_extract_json text))
        (fun e => ret (error_answer e))
  end.

End Agent.
End GeneratorAgent.

Local Close Scope N_scope.

(** ** [handler/run.py] *)

(** [bool(v)] *)
Definition truthy (env : Services) (v : json) : bool :=
  match v with
  | JNull => false
  | JBool b => b
  | JInt z => negb (z =? 0)%Z
  | JFloat lexeme => fnonzero (float_of_lexeme env lexeme)
  | JString s => RetrieverAgent.nonempty s
  | JArray items => RetrieverAgent.nonempty items
  | JObject fields => RetrieverAgent.nonempty fields
  end.

(** [str(v)] *)
Definition py_str (env : Services) (v : json) : str :=
  match v with
  | JString s => s
  | _ => py_repr env v
  end.

Definition decision_keys : list str :=
  [py "decision"; py "answer"; py "response"; py "content"; py "text"].

(** The loop over the candidate keys: the value of the first key that is
    present with a true value. *)
Fixpoint first_truthy (env : Services) (keys : list str)
  (answer : list (str * json)) : option json :=
  match keys with
  | [] => None
  | key :: keys' =>
      match dict_get key answer with
      | Some v => if truthy env v then Some v else first_truthy env keys' answer
      | None => first_truthy env keys' answer
      end
  end.

Definition extract_decision_from_answer (env : Services) (answer : json)
  : str :=
  match answer with
  | JObject fields =>
      match first_truthy env decision_keys fields with
      | Some v => py_str env v
      | None => py_str env answer
      end
  | _ => py_str env answer
  end.

(** The dictionary a unit returns: the success shape or the error shape.
    [enhanced] is the dump of the model, field by field. *)
Inductive QuestionResult :=
| Success (question : str) (enhanced : EnhancedQuery) (chunks : list Chunk)
    (answer : json) (generated_answer : str)
| Failure (question : str) (error : str).

Definition question (r : QuestionResult) : str :=
  match r with
  | Success q _ _ _ _ => q
  | Failure q _ => q
  end.

Definition status (r : QuestionResult) : str :=
  match r with
  | Success _ _ _ _ _ => py "success"
  | Failure _ _ => py "error"
  end.

(** The three agents are built before the [try]; their classes were
    initialised when the module was imported, so building them again does
    nothing.  The retriever is called with its default arguments. *)
Definition process_single_question (env : Services) (user_query : str)
  : M QuestionResult :=
  try_except
    (let* enhanced := QueryEnhancerAgent.enhance_query env user_query in
     let* chunks :=
       RetrieverAgent.retrieve_and_rerank env enhanced 35 5 (Finite 0.5) in
     let* answer := GeneratorAgent.generate_answer env user_query chunks in
     let generated_answer := extract_decision_from_answer env answer in
     ret (Success user_query enhanced chunks answer generated_answer))
    (fun e => ret (Failure user_query (exn_str e))).

(** [list.sort(key=...)] is stable: elements with equal keys keep their
    order.  Insertion from the right is the stable sort. *)
Fixpoint insert_by {A} (key : A -> nat) (x : A) (l : list A) : list A :=
  match l with
  | [] => [x]
  | y :: l' => if key x <=? key y then x :: l else y :: insert_by key x l'
  end.

Definition sort_by {A} (key : A -> nat) (l : list A) : list A :=
  foldr (insert_by key) [] l.

(** *** The worker pool

    A future is the question it was submitted for, the time at which its
    unit completes ([None]: never) and what the unit returns or raises.
    A unit runs [process_single_question] against the services as it finds
    them: [run_trace] is the trace its calls extend.  The width of the pool
    and the scheduler only decide the completion times, which are given. *)

Record Future := {
  fut_question : str;
  fut_done_at : option nat;
  fut_outcome : result QuestionResult
}.

Record UnitRun := {
  run_trace : trace;
  run_done_at : option nat
}.

(** [executor.submit(process_single_question, question)] *)
Definition submit (env : Services) (question : str) (run : UnitRun) : Future :=
  {| fut_question := question;
     fut_done_at := run_done_at run;
     fut_outcome := fst (process_single_question env question (run_trace run)) |}.

Definition done_by (T : nat) (f : Future) : bool :=
  match fut_done_at f with
  | Some t => t <=? T
  | None => false
  end.

Definition done_time (f : Future) : nat := default 0 (fut_done_at f).

(** [as_completed(fs)] as far as it has got at time [T]: the futures that
    have completed, in the order of their completion.  It never yields a
    future that has not completed, and it ends when all have.  Futures that
    complete before the iteration starts are yielded in no particular order;
    every order of the futures is the order of some completion times, and
    the completion times are arbitrary. *)
Definition as_completed (T : nat) (fs : list Future) : list Future :=
  sort_by done_time (List.filter (done_by T) fs).

(** [future.result(timeout)] called at time [now]: the outcome if the future
    has completed or completes before the timeout expires. *)
Definition future_result (f : Future) (now timeout : nat)
  : result QuestionResult :=
  match fut_done_at f with
  | Some t =>
      if t <=? now + timeout then fut_outcome f
      else Raise (Exn TimeoutError [])
  | None => Raise (Exn TimeoutError [])
  end.

(** The body of the loop, run when [as_completed] yields [future], which is
    when it completes. *)
Definition collect (future : Future) : QuestionResult :=
  let question := fut_question future in
  match future_result future (done_time future) 30 with
  | Ok result => result
  | Raise e => Failure question (py "Processing failed: " ++ exn_str e)
  end.

(** The dictionary comprehension over [enumerate(questions)]: a later
    position overwrites an earlier one of the same question. *)
Definition question_to_index (questions : list str) : gmap str nat :=
  foldl (fun m iq => <[snd iq := fst iq]> m) ∅
        (imap (fun i q => (i, q)) questions).

(** What the call has returned by time [T]: [None] while the loop is still
    waiting for a future. *)
Definition process_questions_parallel (env : Services) (T : nat)
  (questions : list str) (max_workers : Z) (runs : nat -> UnitRun)
  : option (result (list QuestionResult)) :=
  match questions with
  | [] => Some (Ok [])
  | _ :: _ =>
      if (max_workers <=? 0)%Z then
        Some (Raise (Exn ValueError (py "max_workers must be greater than 0")))
      else
        let futures := imap (fun i q => submit env q (runs i)) questions in
        if forallb (done_by T) futures then
          let results := map collect (as_completed T futures) in
          let index := question_to_index questions in
          Some (Ok (sort_by
                      (fun x => default (length questions) (index !! question x))
                      results))
        else None
  end.

(** [enhanced.model_dump()]: the fields of the model in the order of their
    declaration, an absent list as [None]. *)
Definition dump_optional (o : option (list str)) : json :=
  match o with
  | Some l => JArray (map JString l)
  | None => JNull
  end.

Definition model_dump (e : EnhancedQuery) : json :=
  JObject
    [(py "intent", JString (intent e));
     (py "entities", JArray (map JString (entities e)));
     (py "keywords", dump_optional (keywords e));
     (py "conditions", dump_optional (conditions e));
     (py "raw_query", JString (raw_query e))].

(** ** More operations on strings *)

(** [s.split()]: the maximal runs of characters that are not whitespace.
    [cur] is the run being read. *)
Fixpoint split_ws_from (cur : str) (s : str) : list str :=
  match s with
  | [] => match cur with [] => [] | _ :: _ => [cur] end
  | c :: s' =>
      if is_space c then
        match cur with
        | [] => split_ws_from [] s'
        | _ :: _ => cur :: split_ws_from [] s'
        end
      else split_ws_from (cur ++ [c]) s'
  end.

Definition split_ws (s : str) : list str := split_ws_from [] s.

(** [s.split(sep)] for a separator of one character. *)
Fixpoint split_char_from (sep : N) (cur : str) (s : str) : list str :=
  match s with
  | [] => [cur]
  | c :: s' =>
      if (c =? sep)%N then cur :: split_char_from sep [] s'
      else split_char_from sep (cur ++ [c]) s'
  end.

Definition split_char (sep : N) (s : str) : list str :=
  split_char_from sep [] s.

(** [s.lower()] is a function of the interpreter over all of Unicode and is
    an argument of the definitions that call it.  On a text of ASCII
    characters it is [ascii_lower]. *)
Definition is_ascii (s : str) : Prop := Forall (fun c => (c < 128)%N) s.

Definition ascii_lower (s : str) : str :=
  map (fun c => if ((65 <=? c) && (c <=? 90))%N then (c + 32)%N else c) s.

(** ** [handler/hackrx.py] *)

Definition extension_map : gmap str str :=
  list_to_map
    [(py "application/pdf", py ".pdf");
     (py "application/msword", py ".doc");
     (py "application/vnd.openxmlformats-officedocument.wordprocessingml.document",
       py ".docx");
     (py "message/rfc822", py ".eml");
     (py "application/vnd.ms-outlook", py ".msg");
     (py "text/plain", py ".txt")].

(** [content_type_header] is the content-type header of the response, [None]
    when the response has none. *)
Definition get_file_extension (lower : str -> str)
  (content_type_header : option str) : str :=
  let content_type :=
    default [] (head (split_char 59 (lower (default [] content_type_header)))) in
  default (py ".pdf") (extension_map !! content_type).

(** The answer string of one result. *)
Definition answer_of (result : QuestionResult) : str :=
  match result with
  | Success _ _ _ _ generated_answer => generated_answer
  | Failure _ error => py "Error: " ++ error
  end.

(** [get_answers_from_file] as far as it has got at time [T]; the batch is
    run with the default width of the pool, and the path of the file is not
    used. *)
Definition get_answers_from_file (env : Services) (T : nat) (file_path : str)
  (questions : list str) (runs : nat -> UnitRun)
  : option (result (list str)) :=
  match process_questions_parallel env T questions 2 runs with
  | Some (Ok results) => Some (Ok (map answer_of results))
  | Some (Raise e) => Some (Raise e)
  | None => None
  end.

(** ** [middleware/middleware.py] and [middleware/logMiddleware.py] *)

(** What the two middlewares read of a request. *)
Record Request := {
  request_url : str;
  request_method : str;
  request_authorization : option str;
  request_body : list N
}.

(** The response of a middleware: one it builds itself, or the one of the
    rest of the application. *)
Inductive Response (R : Type) :=
| JSONResponse (status_code : nat) (detail : str) (headers : list (str * str))
| Downstream (r : R).
Arguments JSONResponse {R} status_code detail headers.
Arguments Downstream {R} r.

(** [token_env] is the environment variable TOKEN. *)
Definition authentication_middleware {R : Type} (lower : str -> str)
  (token_env : option str) (request : Request) (call_next : Request -> R)
  : Response R :=
  match request_authorization request with
  | None => JSONResponse 401 (py "Authorization header is missing") []
  | Some authorization =>
      match split_ws authorization with
      | [scheme; token] =>
          if negb (bool_decide (lower scheme = py "bearer")) then
            JSONResponse 401 (py "Invalid authentication scheme") []
          else if negb (bool_decide (Some token = token_env)) then
            JSONResponse 401 (py "Invalid authentication credentials")
              [(py "WWW-Authenticate", py "Bearer")]
          else Downstream (call_next request)
      | _ =>
          JSONResponse 401
            (py "Invalid Authorization header format. Must be 'Bearer <token>'.")
            []
      end
  end.

(** The body as it is shown: the dump of the parsed body when the body
    parses to a true value, the text itself otherwise.  [json_dumps] is
    [json.dumps] with an indent of 2. *)
Definition pretty_body_of (env : Services) (json_dumps : json -> str)
  (body_text : str) : str :=
  match body_text with
  | [] => body_text
  | _ :: _ =>
      match Json.decode body_text with
      | Some body_json =>
          if truthy env body_json then json_dumps body_json else body_text
      | None => body_text
      end
  end.

Definition max_body_length : nat := 1500.

Definition truncate_body (pretty_body : str) : str :=
  if max_body_length <? length pretty_body
  then take max_body_length pretty_body ++ py "... (truncated)"
  else pretty_body.

(** The f-string of the message. *)
Definition webhook_message (url method auth_header pretty_body : str) : str :=
  py "**Incoming request:**" ++ [LF]
  ++ py "**URL:** " ++ url ++ [LF]
  ++ py "**Method:** " ++ method ++ [LF]
  ++ py "**Authorization:** " ++ auth_header ++ [LF; LF]
  ++ py "**Body:**" ++ [LF] ++ py "```json" ++ [LF] ++ pretty_body ++ [LF]
  ++ py "```".

(** The text sent to the webhook.  [utf8_ignore] decodes the body as UTF-8
    and drops what does not decode. *)
Definition webhook_content (env : Services) (utf8_ignore : list N -> str)
  (json_dumps : json -> str) (request : Request) : str :=
  let body_text := utf8_ignore (request_body request) in
  let pretty_body := truncate_body (pretty_body_of env json_dumps body_text) in
  let auth_header :=
    default (py "No Authorization header") (request_authorization request) in
  let content :=
    webhook_message (request_url request) (request_method request)
      auth_header pretty_body in
  if 2000 <? length content then take 1997 content ++ py "..." else content.

(** The middleware: the messages it posts to the webhook and its response.
    A failure of the post is printed and dropped; the request goes on with
    its body replayed. *)
Definition discord_webhook_middleware {R : Type} (env : Services)
  (utf8_ignore : list N -> str) (json_dumps : json -> str)
  (webhook_url : option str) (request : Request) (call_next : Request -> R)
  : list str * R :=
  let content := webhook_content env utf8_ignore json_dumps request in
  let posted :=
    match webhook_url with
    | Some (_ :: _) => [content]
    | _ => []
    end in
  (posted, call_next request).

(** ** [main.py]

    The application is the router behind the two middlewares.  The
    middleware added last is the outermost: a request passes the
    authentication first, then the webhook middleware, then the router. *)
Definition app {R : Type} (lower : str -> str) (token_env : option str)
  (env : Services) (utf8_ignore : list N -> str) (json_dumps : json -> str)
  (webhook_url : option str) (router : Request -> R) (request : Request)
  : Response (list str * R) :=
  authentication_middleware lower token_env request
    (fun req =>
       discord_webhook_middleware env utf8_ignore json_dumps webhook_url req
         router).

(** ** Sample services

    Concrete services on which the definitions are run. *)

Definition service_error : exn := Exn ServiceError (py "service unavailable").

Definition sample_embedding : Embedding :=
  {| dense_vecs := [Finite 0.25; Finite 0.5];
     lexical_weights := [(7%Z, Finite 0.5); (9%Z, Finite 0)] |}.

Definition sample_metadata (text : str) : Metadata :=
  {| text_content := Some text;
     document_name := Some (py "Policy.md");
     section_hierarchy := Some [py "4 EXCLUSIONS"; py "4.1"] |}.

Definition sample_match (id : str) (text : str) : Match :=
  {| match_id := Some id;
     match_score := Some (Finite 0.75);
     match_metadata := sample_metadata text |}.

(** Services assembled from the three oracles; the arithmetic is exact and
    the texts that do not matter are empty. *)
Definition services
  (llm : trace -> str -> nat -> result str)
  (emb : trace -> str -> result Embedding)
  (idx : trace -> IndexRequest -> result (list Match)) : Services :=
  {| llm_generate := llm;
     embedder_encode := emb;
     index_query := idx;
     index_namespace := py "bajaj-namespace";
     fmul := fun a b =>
       match a, b with Finite x, Finite y => Finite (x * y) | _, _ => NaN end;
     fsub := fun a b =>
       match a, b with Finite x, Finite y => Finite (x - y) | _, _ => NaN end;
     float_of_lexeme := fun _ => Finite 1;
     py_repr := fun _ => [];
     json_error_text := fun _ => py "Expecting value";
     validation_error_text := fun _ => py "validation error";
     enhancer_prompt := fun q => py "Query: " ++ q;
     generator_prompt := fun c q => c ++ py "User Query: " ++ q |}.

(** Every service is down. *)
Definition offline : Services :=
  services (fun _ _ _ => Raise service_error)
           (fun _ _ => Raise service_error)
           (fun _ _ => Raise service_error).

(** The model answers every prompt with [text]; the index returns
    [matches]. *)
Definition online (text : str) (matches : list Match) : Services :=
  services (fun _ _ _ => Ok text)
           (fun _ _ => Ok sample_embedding)
           (fun _ _ => Ok matches).

Definition sample_runs (times : list (option nat)) (i : nat) : UnitRun :=
  {| run_trace := []; run_done_at := default None (times !! i) |}.




Definition sample_query : EnhancedQuery :=
  {| intent := py "waiting_period";
     entities := [py "pre-existing diseases"];
     keywords := Some [py "PED"];
     conditions := None;
     raw_query := py "What is the waiting period?" |}.

(** An index response in which the third match repeats the id of the
    first. *)
Definition sample_matches : list Match :=
  [sample_match (py "doc-1") (py "first text");
   sample_match (py "doc-2") (py "second text");
   sample_match (py "doc-1") (py "repeated text")].

(** A reply of the model to the enhancer prompt that is valid for the schema
    but rewords the question in [raw_query]. *)
Definition sample_question : str := py "Does this policy cover knee surgery?".

Definition paraphrasing_reply : str :=
  pyq "{'intent': 'coverage_check', 'entities': ['knee surgery'], 'keywords': null, 'conditions': null, 'raw_query': 'Is knee surgery covered?'}".

(** A request with a bearer token, and stand-ins for the decoder of the
    body and for the dump. *)
Definition sample_request : Request :=
  {| request_url := py "http://localhost/hackrx/run";
     request_method := py "POST";
     request_authorization := Some (py "Bearer  s3cret");
     request_body := py "[1, 2]" |}.

Definition sample_utf8 (body : list N) : str := body.

Definition sample_dumps (v : json) : str := py "[1, 2]".

(** ** Notions used in the statements *)

(** The three repairs of the recovery parser, in the order in which they are
    applied to the extracted span: invalid backslashes removed, newlines
    replaced by spaces, trailing commas removed. *)
Definition repaired (span : str) : str :=
  re_sub trailing_comma_match 0
    (replace_char LF SPACE (re_sub invalid_escape_match 0 span)).

(** The position of a weight with respect to the interval from 0 to 1.
    NaN is not ordered with any number: it is neither inside nor outside. *)
Definition in_unit_interval (alpha : pyfloat) : Prop :=
  match alpha with
  | Finite q => (0 <= q)%Q /\ (q <= 1)%Q
  | _ => False
  end.

Definition outside_unit_interval (alpha : pyfloat) : Prop :=
  match alpha with
  | Finite q => (q < 0)%Q \/ (1 < q)%Q
  | PosInf | NegInf => True
  | NaN => False
  end.

(** The sparse vector the retriever builds from the lexical weights: the
    entries whose weight is not zero. *)
Definition sparse_of (emb : Embedding) : SparseVector :=
  {| sparse_indices :=
       map fst (List.filter (fun iv => fnonzero (snd iv)) (lexical_weights emb));
     sparse_values :=
       map snd (List.filter (fun iv => fnonzero (snd iv)) (lexical_weights emb)) |}.

(** The query the retriever sends to the index for an embedding, when the
    weighting accepts [alpha]. *)
Definition request_of (env : Services) (emb : Embedding) (top_k : Z)
  (alpha : pyfloat) : result IndexRequest :=
  match hybrid_score_norm env (dense_vecs emb) (sparse_of emb) alpha with
  | Ok (hdense, hsparse) =>
      Ok {| req_vector := hdense; req_sparse_vector := hsparse;
            req_top_k := top_k; req_namespace := index_namespace env;
            req_include_metadata := true |}
  | Raise e => Raise e
  end.

(** Deduplication as the specification words it: a match is kept when no
    match before it in the response has the same id, and the kept matches
    stay in the order of the response. *)
Definition is_first_occurrence (results : list Match) (i : nat) (res : Match)
  : bool :=
  forallb (fun earlier => negb (bool_decide (match_id earlier = match_id res)))
          (take i results).

Definition first_occurrences (results : list Match) : list Match :=
  concat (imap (fun i res =>
                  if is_first_occurrence results i res then [res] else [])
               results).

(** The enhanced query a unit works with, and the answer of the embedder to
    the call the retriever makes for it. *)
Definition enhanced_by (env : Services) (q : str) (tr : trace) : EnhancedQuery :=
  match fst (QueryEnhancerAgent.enhance_query env q tr) with
  | Ok enhanced => enhanced
  | Raise _ => QueryEnhancerAgent.fallback q
  end.

Definition embedding_answer (env : Services) (q : str) (tr : trace)
  : result Embedding :=
  embedder_encode env (snd (QueryEnhancerAgent.enhance_query env q tr))
    (RetrieverAgent._compose_search_query (enhanced_by env q tr)).

(** The call of the retriever a unit makes, after the enhancer. *)
Definition retrieval (env : Services) (q : str) (tr : trace)
  : result (list Chunk) * trace :=
  RetrieverAgent.retrieve_and_rerank env (enhanced_by env q tr) 35 5
    (Finite 0.5) (snd (QueryEnhancerAgent.enhance_query env q tr)).

(** The body of the [try] of [generate_answer]: the call of the model and
    the recovery parser. *)
Definition generation_attempt (env : Services) (raw_query : str)
  (chunks : list Chunk) : M json :=
  let context := concat (imap GeneratorAgent.chunk_context chunks) in
  let prompt := generator_prompt env context raw_query in
  let* text := generate_content env prompt 2048 in
  lift (GeneratorAgent._extract_json env text).

(** The dictionary comprehension of [question_to_index] resumed at position
    [k] with the dictionary [m]. *)
Definition index_from (k : nat) (questions : list str) (m : gmap str nat)
  : gmap str nat :=
  foldl (fun m iq => <[snd iq := fst iq]> m) m
        (imap (fun j q => (k + j, q)) questions).

(** The key of the final sort, on questions. *)
Definition order_key (questions : list str) (q : str) : nat :=
  default (length questions) (question_to_index questions !! q).

(** An opening or a closing brace. *)
Definition is_brace (c : N) : Prop := c = LBRACE \/ c = RBRACE.

(** * Properties *)

(** ** Text operations *)

Section TextFacts.
Implicit Types (s : str) (x c : N).

Lemma drop_while_elem p s x : x ∈ drop_while p s -> x ∈ s.
Proof.
  induction s as [|c s IH]; simpl; [done|].
  destruct (p c); [|done]. intros H. right. by apply IH.
Qed.

Lemma strip_elem s x : x ∈ strip s -> x ∈ s.
Proof.
  unfold strip. rewrite list_elem_of_In, <- in_rev, <- list_elem_of_In.
  intros H. apply drop_while_elem in H.
  rewrite list_elem_of_In, <- in_rev, <- list_elem_of_In in H.
  by apply drop_while_elem in H.
Qed.

(** A substitution that only deletes adds no character. *)
Lemma re_sub_delete_elem (m : str -> option (nat * str)) :
  (forall t n r, m t = Some (n, r) -> r = []) ->
  forall s k x, x ∈ re_sub m k s -> x ∈ s.
Proof.
  intros Hm s. induction s as [|c s IH]; intros k x; simpl; [done|].
  destruct k as [|k].
  - destruct (m (c :: s)) as [[[|n] r]|] eqn:E.
    + rewrite elem_of_cons. intros [->|H]; [left|right; eauto].
    + rewrite (Hm _ _ _ E). simpl. intros H. right. eauto.
    + rewrite elem_of_cons. intros [->|H]; [left|right; eauto].
  - intros H. right. eauto.
Qed.

Lemma fence_match_deletes t n r : fence_match t = Some (n, r) -> r = [].
Proof.
  unfold fence_match. repeat case_match; congruence.
Qed.

Lemma invalid_escape_match_deletes t n r :
  invalid_escape_match t = Some (n, r) -> r = [].
Proof.
  unfold invalid_escape_match. repeat case_match; congruence.
Qed.

Lemma last_index_none c s : c ∉ s -> last_index c s = None.
Proof.
  induction s as [|d s IH]; simpl; [done|].
  rewrite not_elem_of_cons. intros [Hd Hs]. rewrite (IH Hs).
  destruct (N.eqb_spec d c); congruence.
Qed.

Lemma search_braces_no_open s : LBRACE ∉ s -> search_braces s = None.
Proof.
  unfold search_braces. intros H.
  assert (drop_while (fun c => negb (c =? LBRACE)%N) s = []) as ->; [|done].
  induction s as [|c s IH]; simpl; [done|].
  apply not_elem_of_cons in H as [Hc Hs].
  destruct (N.eqb_spec c LBRACE); simpl; [congruence|auto].
Qed.

Lemma search_braces_no_close s : RBRACE ∉ s -> search_braces s = None.
Proof.
  unfold search_braces. intros H.
  destruct (drop_while _ s) as [|open rest] eqn:E; [done|].
  rewrite last_index_none; [done|].
  intros Hin. apply H. eapply drop_while_elem. rewrite E. by right.
Qed.

(** The span that [search_braces] finds starts with an opening brace. *)
Lemma search_braces_head s span :
  search_braces s = Some span -> exists rest, span = LBRACE :: rest.
Proof.
  unfold search_braces.
  destruct (drop_while _ s) as [|open rest] eqn:E; [done|].
  destruct (last_index RBRACE rest) as [j|]; [|done].
  intros [= <-]. exists (take (S j) rest). f_equal.
  clear j. induction s as [|c s IH]; simpl in E; [done|].
  destruct (N.eqb_spec c LBRACE); simpl in E; [congruence|auto].
Qed.

End TextFacts.

(** ** The decoder returns a dictionary for a text that opens with a brace *)

Lemma parse_members_dict fuel s acc v rest :
  Json.parse_members fuel s acc = Some (v, rest) -> is_dict v = true.
Proof.
  revert s acc. induction fuel as [|f IH]; intros s acc; simpl; [done|].
  destruct s as [|q r]; [done|].
  destruct (q =? DQUOTE)%N; [|done].
  destruct (Json.scanstring r) as [[key r1]|]; [|done].
  destruct (Json.skip_ws r1) as [|colon r2]; [done|].
  destruct (colon =? COLON)%N; [|done].
  destruct (Json.scan_once f (Json.skip_ws r2)) as [[w r3]|]; [|done].
  destruct (Json.skip_ws r3) as [|d r4]; [done|].
  destruct (d =? RBRACE)%N; [by intros [= <- _]|].
  destruct (d =? COMMA)%N; [apply IH|done].
Qed.

Lemma decode_brace_dict r v :
  Json.decode (LBRACE :: r) = Some v -> is_dict v = true.
Proof.
  unfold Json.decode.
  change (Json.skip_ws (LBRACE :: r)) with (LBRACE :: r).
  destruct (Json.scan_once _ _) as [[w rest]|] eqn:E; [|done].
  destruct (Json.skip_ws rest); [|done]. intros [= <-].
  revert E. generalize (2 * length (LBRACE :: r) + 2). intros [|f]; simpl; [done|].
  destruct (Json.skip_ws r) as [|d r']; [done|].
  destruct (d =? RBRACE)%N; [by intros [= <- _]|].
  apply parse_members_dict.
Qed.

(** ** The fuel of the decoder

    The parser consumes text between two decrements of its fuel; the fuel
    [decode] starts with is never used up, and more fuel changes nothing. *)

Lemma drop_while_length p (s : str) : length (drop_while p s) <= length s.
Proof.
  induction s as [|c s IH]; simpl; [done|]. destruct (p c); simpl; lia.
Qed.

Lemma span_while_length p (s a b : str) :
  span_while p s = (a, b) -> length b <= length s.
Proof.
  revert a b. induction s as [|c s IH]; intros a b; simpl.
  { by intros [= <- <-]. }
  destruct (p c); [|by intros [= <- <-]].
  destruct (span_while p s) as [a' b'] eqn:E. intros [= <- <-].
  specialize (IH _ _ eq_refl). lia.
Qed.

Lemma cons_char_Some c r body rest :
  Json.cons_char c r = Some (body, rest) ->
  exists body', r = Some (body', rest).
Proof. destruct r as [[b t]|]; simpl; [|done]. intros [= <- <-]. eauto. Qed.

Lemma scanstring_length (s body rest : str) :
  Json.scanstring s = Some (body, rest) -> length rest < length s.
Proof.
  assert (forall n (t b r : str), length t <= n ->
            Json.scanstring t = Some (b, r) -> length r < length t) as H;
    [|by apply (H (length s))].
  clear. intros n.
  induction n as [|n IH]; intros s body rest Hle.
  { destruct s; [done|simpl in Hle; lia]. }
  assert (forall c t b, length t < length s ->
            Json.cons_char c (Json.scanstring t) = Some (b, rest) ->
            length rest < length s) as Hrec.
  { intros c t b Hlt [b' Hb']%cons_char_Some.
    apply IH in Hb'; lia. }
  destruct s as [|c r]; simpl; [done|].
  destruct (c =? DQUOTE)%N; [intros [= <- <-]; simpl; lia|].
  destruct (c =? BACKSLASH)%N.
  - destruct r as [|e r1]; [done|].
    destruct (e =? 117)%N.
    + destruct r1 as [|h1 [|h2 [|h3 [|h4 r2]]]]; try done.
      destruct (Json.hex4 h1 h2 h3 h4) as [u|]; [|done].
      destruct r2 as [|b [|u' [|g1 [|g2 [|g3 [|g4 r3]]]]]];
        try (apply Hrec; simpl; lia).
      destruct (if Json.is_high_surrogate u then _ else _) as [[lo t]|];
        apply Hrec; simpl; lia.
    + destruct (Json.unescape e); [|done]. apply Hrec. simpl. lia.
  - destruct (c <? 32)%N; [done|]. apply Hrec. simpl. lia.
Qed.

Lemma match_constant_length (s : str) v rest :
  Json.match_constant s = Some (v, rest) -> length rest < length s.
Proof.
  unfold Json.match_constant.
  repeat (case_match; [intros [= <- <-]; rewrite length_drop;
                       destruct s; [done|simpl; lia]|]).
  done.
Qed.

Lemma match_number_length (s : str) v rest :
  Json.match_number s = Some (v, rest) -> length rest < length s.
Proof.
  unfold Json.match_number.
  assert (forall t ip r1, Json.scan_int t = Some (ip, r1) ->
            length r1 < length t) as Hint.
  { intros [|c r] ip r1; simpl; [done|].
    destruct (c =? 48)%N; [intros [= <- <-]; lia|].
    destruct (Json.is_digit c); [|done].
    destruct (span_while _ r) as [ds r'] eqn:E. intros [= <- <-].
    apply span_while_length in E. lia. }
  assert (forall t fp r2, Json.scan_frac t = (fp, r2) ->
            length r2 <= length t) as Hfrac.
  { intros [|p [|d r]] fp r2; simpl; try by intros [= <- <-].
    destruct (_ && _); [|by intros [= <- <-]].
    destruct (span_while _ r) as [ds r'] eqn:E. intros [= <- <-].
    apply span_while_length in E. simpl. lia. }
  assert (forall t ep r3, Json.scan_exp t = (ep, r3) ->
            length r3 <= length t) as Hexp.
  { intros [|e r] ep r3; simpl; [by intros [= <- <-]|].
    destruct (_ || _); [|by intros [= <- <-]].
    destruct (match r with [] => _ | _ => _ end) as [sign r1] eqn:Es.
    assert (length r1 <= length r) as Hr1.
    { destruct r as [|g r']; [by injection Es as <- <-|].
      destruct (_ || _); injection Es as <- <-; simpl; lia. }
    destruct (span_while _ r1) as [[|d ds] r2] eqn:E; intros [= <- <-];
      [done|]. apply span_while_length in E. simpl. lia. }
  destruct (match s with [] => _ | _ => _ end) as [neg s1] eqn:Es.
  assert (length s1 <= length s) as Hs1.
  { destruct s as [|c r]; [by injection Es as <- <-|].
    destruct (c =? MINUS)%N; injection Es as <- <-; simpl; lia. }
  destruct (Json.scan_int s1) as [[ip r1]|] eqn:Ei; [|done].
  destruct (Json.scan_frac r1) as [fp r2] eqn:Ef.
  destruct (Json.scan_exp r2) as [ep r3] eqn:Ee.
  apply Hint in Ei. apply Hfrac in Ef. apply Hexp in Ee.
  destruct fp, ep; intros [= <- <-]; lia.
Qed.

(** Every parser leaves less text than it was given. *)
Lemma scan_once_length (fuel : nat) :
  (forall s v rest, Json.scan_once fuel s = Some (v, rest) ->
                    length rest < length s)
  /\ (forall s acc v rest, Json.parse_members fuel s acc = Some (v, rest) ->
                           length rest < length s)
  /\ (forall s acc v rest, Json.parse_items fuel s acc = Some (v, rest) ->
                           length rest < length s).
Proof.
  induction fuel as [|f (IHs & IHm & IHi)]; [done|].
  split; [|split].
  - intros [|c r] v rest; simpl; [done|].
    destruct (c =? DQUOTE)%N.
    { destruct (Json.scanstring r) as [[body r']|] eqn:E; [|done].
      intros [= <- <-]. apply scanstring_length in E. lia. }
    pose proof (drop_while_length Json.is_ws r) as Hws.
    fold (Json.skip_ws r) in Hws.
    destruct (c =? LBRACE)%N.
    { destruct (Json.skip_ws r) as [|d r'] eqn:E; [done|].
      destruct (d =? RBRACE)%N; [intros [= <- <-]; simpl in Hws; lia|].
      intros H%IHm. lia. }
    destruct (c =? LBRACKET)%N.
    { destruct (Json.skip_ws r) as [|d r'] eqn:E; [done|].
      destruct (d =? RBRACKET)%N; [intros [= <- <-]; simpl in Hws; lia|].
      intros H%IHi. lia. }
    destruct (Json.match_constant (c :: r)) as [res|] eqn:E.
    { intros [= ->]. by apply match_constant_length in E. }
    apply match_number_length.
  - intros [|q r] acc v rest; simpl; [done|].
    destruct (q =? DQUOTE)%N; [|done].
    destruct (Json.scanstring r) as [[key r1]|] eqn:Ek; [|done].
    apply scanstring_length in Ek.
    pose proof (drop_while_length Json.is_ws r1) as Hws1.
    fold (Json.skip_ws r1) in Hws1.
    destruct (Json.skip_ws r1) as [|colon r2]; [done|].
    destruct (colon =? COLON)%N; [|done].
    pose proof (drop_while_length Json.is_ws r2) as Hws2.
    fold (Json.skip_ws r2) in Hws2.
    destruct (Json.scan_once f (Json.skip_ws r2)) as [[w r3]|] eqn:Ev; [|done].
    apply IHs in Ev.
    pose proof (drop_while_length Json.is_ws r3) as Hws3.
    fold (Json.skip_ws r3) in Hws3.
    destruct (Json.skip_ws r3) as [|d r4]; [done|]. simpl in *.
    destruct (d =? RBRACE)%N; [intros [= <- <-]; lia|].
    destruct (d =? COMMA)%N; [|done].
    pose proof (drop_while_length Json.is_ws r4) as Hws4.
    fold (Json.skip_ws r4) in Hws4.
    intros H%IHm. lia.
  - intros s acc v rest; simpl.
    destruct (Json.scan_once f s) as [[w r1]|] eqn:Ev; [|done].
    apply IHs in Ev.
    pose proof (drop_while_length Json.is_ws r1) as Hws1.
    fold (Json.skip_ws r1) in Hws1.
    destruct (Json.skip_ws r1) as [|d r2]; [done|]. simpl in *.
    destruct (d =? RBRACKET)%N; [intros [= <- <-]; lia|].
    destruct (d =? COMMA)%N; [|done].
    pose proof (drop_while_length Json.is_ws r2) as Hws2.
    fold (Json.skip_ws r2) in Hws2.
    intros H%IHi. lia.
Qed.

(** With fuel above twice the length of the text, one more unit of fuel
    gives the same result. *)
Lemma scan_once_fuel (fuel : nat) :
  (forall s, 2 * length s + 1 <= fuel ->
             Json.scan_once (S fuel) s = Json.scan_once fuel s)
  /\ (forall s acc, 2 * length s + 2 <= fuel ->
                    Json.parse_members (S fuel) s acc
                    = Json.parse_members fuel s acc)
  /\ (forall s acc, 2 * length s + 2 <= fuel ->
                    Json.parse_items (S fuel) s acc
                    = Json.parse_items fuel s acc).
Proof.
  induction fuel as [|f (IHs & IHm & IHi)]; [repeat split; intros; lia|].
  split; [|split].
  - intros [|c r] Hf; [done|]. simpl in Hf.
    change (Json.scan_once (S (S f)) (c :: r))
      with (if (c =? DQUOTE)%N then
              match Json.scanstring r with
              | Some (body, r') => Some (JString body, r')
              | None => None
              end
            else if (c =? LBRACE)%N then
              match Json.skip_ws r with
              | d :: r' =>
                  if (d =? RBRACE)%N then Some (JObject [], r')
                  else Json.parse_members (S f) (d :: r') []
              | [] => None
              end
            else if (c =? LBRACKET)%N then
              match Json.skip_ws r with
              | d :: r' =>
                  if (d =? RBRACKET)%N then Some (JArray [], r')
                  else Json.parse_items (S f) (d :: r') []
              | [] => None
              end
            else
              match Json.match_constant (c :: r) with
              | Some res => Some res
              | None => Json.match_number (c :: r)
              end).
    change (Json.scan_once (S f) (c :: r))
      with (if (c =? DQUOTE)%N then
              match Json.scanstring r with
              | Some (body, r') => Some (JString body, r')
              | None => None
              end
            else if (c =? LBRACE)%N then
              match Json.skip_ws r with
              | d :: r' =>
                  if (d =? RBRACE)%N then Some (JObject [], r')
                  else Json.parse_members f (d :: r') []
              | [] => None
              end
            else if (c =? LBRACKET)%N then
              match Json.skip_ws r with
              | d :: r' =>
                  if (d =? RBRACKET)%N then Some (JArray [], r')
                  else Json.parse_items f (d :: r') []
              | [] => None
              end
            else
              match Json.match_constant (c :: r) with
              | Some res => Some res
              | None => Json.match_number (c :: r)
              end).
    pose proof (drop_while_length Json.is_ws r) as Hws.
    fold (Json.skip_ws r) in Hws.
    destruct (c =? DQUOTE)%N; [done|].
    destruct (c =? LBRACE)%N.
    { destruct (Json.skip_ws r) as [|d r']; [done|].
      destruct (d =? RBRACE)%N; [done|]. apply IHm. simpl in *. lia. }
    destruct (c =? LBRACKET)%N; [|done].
    destruct (Json.skip_ws r) as [|d r']; [done|].
    destruct (d =? RBRACKET)%N; [done|]. apply IHi. simpl in *. lia.
  - intros [|q r] acc Hf; [done|]. simpl in Hf.
    cbn [Json.parse_members].
    destruct (q =? DQUOTE)%N; [|done].
    destruct (Json.scanstring r) as [[key r1]|] eqn:Ek; [|done].
    apply scanstring_length in Ek.
    pose proof (drop_while_length Json.is_ws r1) as Hws1.
    fold (Json.skip_ws r1) in Hws1.
    destruct (Json.skip_ws r1) as [|colon r2]; [done|].
    destruct (colon =? COLON)%N; [|done].
    pose proof (drop_while_length Json.is_ws r2) as Hws2.
    fold (Json.skip_ws r2) in Hws2. simpl in Hws1.
    rewrite IHs by lia.
    destruct (Json.scan_once f (Json.skip_ws r2)) as [[w r3]|] eqn:Ev; [|done].
    apply (proj1 (scan_once_length f)) in Ev.
    pose proof (drop_while_length Json.is_ws r3) as Hws3.
    fold (Json.skip_ws r3) in Hws3.
    destruct (Json.skip_ws r3) as [|d r4]; [done|]. simpl in Hws3.
    destruct (d =? RBRACE)%N; [done|].
    destruct (d =? COMMA)%N; [|done].
    pose proof (drop_while_length Json.is_ws r4) as Hws4.
    fold (Json.skip_ws r4) in Hws4.
    apply IHm. lia.
  - intros s acc Hf. cbn [Json.parse_items].
    rewrite IHs by lia.
    destruct (Json.scan_once f s) as [[w r1]|] eqn:Ev; [|done].
    apply (proj1 (scan_once_length f)) in Ev.
    pose proof (drop_while_length Json.is_ws r1) as Hws1.
    fold (Json.skip_ws r1) in Hws1.
    destruct (Json.skip_ws r1) as [|d r2]; [done|]. simpl in Hws1.
    destruct (d =? RBRACKET)%N; [done|].
    destruct (d =? COMMA)%N; [|done].
    pose proof (drop_while_length Json.is_ws r2) as Hws2.
    fold (Json.skip_ws r2) in Hws2.
    apply IHi. lia.
Qed.

(** The fuel of [decode] is enough: any larger amount gives the same
    result. *)
Lemma decode_fuel_enough (s : str) (k : nat) :
  Json.scan_once (2 * length s + 2 + k) (Json.skip_ws s)
  = Json.scan_once (2 * length s + 2) (Json.skip_ws s).
Proof.
  pose proof (drop_while_length Json.is_ws s) as Hws.
  fold (Json.skip_ws s) in Hws.
  induction k as [|k IH]; [by rewrite Nat.add_0_r|].
  rewrite Nat.add_succ_r, <- IH.
  apply (proj1 (scan_once_fuel _)). lia.
Qed.

(** ** The recovery parser of the generator *)

(** C3. A text without an opening brace, or without a closing brace, makes
    the recovery parser of the generator raise the [ValueError] whose message
    is [No valid JSON object found in LLM response.]; being a function of the
    text, it does so every time, and no record is returned. *)
Theorem extract_json_no_braces (env : Services) (text : str) :
  LBRACE ∉ text \/ RBRACE ∉ text ->
  GeneratorAgent._extract_json env text
  = Raise (Exn ValueError (py "No valid JSON object found in LLM response.")).
Proof.
  intros H. unfold GeneratorAgent._extract_json.
  assert (search_braces (re_sub fence_match 0 (strip text)) = None) as ->;
    [|done].
  destruct H as [H|H];
    [apply search_braces_no_open|apply search_braces_no_close];
    intros Hin; apply H, strip_elem;
    eapply re_sub_delete_elem; eauto using fence_match_deletes.
Qed.

Lemma extract_json_no_braces_witness :
  (LBRACE ∉ py "I cannot answer that }")
  /\ (GeneratorAgent._extract_json offline (py "I cannot answer that }")
      = Raise (Exn ValueError (py "No valid JSON object found in LLM response."))).
Proof.
  assert (LBRACE ∉ py "I cannot answer that }") as H.
  { apply (bool_decide_unpack _). vm_compute. exact I. }
  split; [exact H|].
  apply (extract_json_no_braces offline (py "I cannot answer that }")).
  left. exact H.
Defined.

Lemma repaired_head rest : exists rest', repaired (LBRACE :: rest) = LBRACE :: rest'.
Proof.
  unfold repaired. cbn [re_sub invalid_escape_match].
  change (LBRACE =? BACKSLASH)%N with false. cbn iota.
  cbn [replace_char map]. change (LBRACE =? LF)%N with false. cbn iota.
  cbn [re_sub trailing_comma_match].
  change (LBRACE =? COMMA)%N with false. cbn iota. eauto.
Qed.



(** ** The generator *)

(** C8. With no chunk, [generate_answer] returns the fixed Not Found object
    and leaves the trace as it found it: the text-generation model is not
    called. *)
Theorem generate_answer_no_chunks (env : Services) (raw_query : str)
  (tr : trace) :
  GeneratorAgent.generate_answer env raw_query [] tr
  = (Ok (JObject
           [(py "decision", JString (py "Not Found"));
            (py "amount", JNull);
            (py "justification",
              JString
                (py "Could not find relevant information in the provided documents."));
            (py "clauses", JArray [])]),
     tr).
Proof. reflexivity. Qed.

Lemma generate_answer_no_chunks_no_call (env : Services) (raw_query : str)
  (tr : trace) :
  llm_calls (snd (GeneratorAgent.generate_answer env raw_query [] tr))
  = llm_calls tr.
Proof. reflexivity. Qed.

(** The generator never raises: a failure of the model or of the recovery
    parser becomes the Error object. *)
Lemma generate_answer_total (env : Services) (raw_query : str)
  (chunks : list Chunk) (tr : trace) :
  exists answer, fst (GeneratorAgent.generate_answer env raw_query chunks tr)
                 = Ok answer.
Proof.
  destruct chunks as [|c chunks]; [by eexists|].
  unfold GeneratorAgent.generate_answer, try_except, bind, generate_content,
    call, lift, ret.
  destruct (llm_generate _ _ _ _) as [text|e]; [|by eexists].
  destruct (GeneratorAgent._extract_json env text); by eexists.
Qed.

(** ** The retriever *)

Section RetrieverFacts.
Context (env : Services).
Implicit Types (alpha : pyfloat) (emb : Embedding) (tr : trace).

Lemma hybrid_ok_inside dense sparse alpha :
  in_unit_interval alpha ->
  exists w, hybrid_score_norm env dense sparse alpha = Ok w.
Proof.
  destruct alpha as [q| | |]; simpl; try done. intros [H0 H1].
  unfold hybrid_score_norm, fgt, flt.
  apply Qle_bool_iff in H0, H1. rewrite H0, H1. simpl. eauto.
Qed.

Lemma hybrid_raises_outside dense sparse alpha :
  outside_unit_interval alpha ->
  hybrid_score_norm env dense sparse alpha
  = Raise (Exn ValueError (py "Alpha must be between 0 and 1")).
Proof.
  unfold hybrid_score_norm, fgt.
  destruct alpha as [q| | |]; simpl; try done.
  intros [H|H].
  - destruct (Qle_bool 0 q) eqn:E; [|done].
    apply Qle_bool_iff in E. by apply Qlt_not_le in H.
  - destruct (Qle_bool q 1) eqn:E; [|by rewrite orb_true_r].
    apply Qle_bool_iff in E. by apply Qlt_not_le in H.
Qed.

(** The retriever, case by case. *)
Lemma retrieve_unfold enhanced k1 k2 alpha tr :
  let q := RetrieverAgent._compose_search_query enhanced in
  let tr1 := tr ++ [EmbedCall q] in
  RetrieverAgent.retrieve_and_rerank env enhanced k1 k2 alpha tr
  = match embedder_encode env tr q with
    | Raise e => (Raise e, tr1)
    | Ok emb =>
        match request_of env emb k2 alpha with
        | Raise e => (Raise e, tr1)
        | Ok req =>
            (match index_query env tr1 req with
             | Raise _ => Ok []
             | Ok [] => Ok []
             | Ok results =>
                 Ok (map RetrieverAgent.final_result
                       (RetrieverAgent.unique_loop results ∅ []))
             end, tr1 ++ [IndexCall req])
        end
    end.
Proof.
  intros q tr1.
  unfold RetrieverAgent.retrieve_and_rerank, bind, call, lift, request_of.
  fold q. destruct (embedder_encode env tr q) as [emb|e]; [|done].
  fold (sparse_of emb). fold tr1.
  destruct (hybrid_score_norm _ _ _ _) as [[hd hs]|e]; [|done].
  unfold try_except, bind, call, ret.
  destruct (index_query _ _ _) as [[|r rs]|e]; done.
Qed.




End RetrieverFacts.

Lemma index_calls_embed tr q : index_calls (tr ++ [EmbedCall q]) = index_calls tr.
Proof. unfold index_calls. rewrite omap_app. simpl. by rewrite app_nil_r. Qed.


(** C5. A weight below 0 or above 1 makes the hybrid scoring raise the
    [ValueError] of the guard, and the retriever called with it raises
    without a query to the index: the trace gains no index call.  When the
    embedder has answered, the exception the retriever raises is that
    [ValueError]. *)
Theorem alpha_outside_no_index_query (env : Services) (enhanced : EnhancedQuery)
  (top_k_initial top_k_final : Z) (alpha : pyfloat) (tr : trace)
  (dense : list pyfloat) (sparse : SparseVector) :
  outside_unit_interval alpha ->
  let out :=
    RetrieverAgent.retrieve_and_rerank env enhanced top_k_initial top_k_final
      alpha tr in
  hybrid_score_norm env dense sparse alpha
  = Raise (Exn ValueError (py "Alpha must be between 0 and 1"))
  /\ is_ok (fst out) = false
  /\ index_calls (snd out) = index_calls tr
  /\ (is_ok (embedder_encode env tr
               (RetrieverAgent._compose_search_query enhanced)) = true ->
      fst out = Raise (Exn ValueError (py "Alpha must be between 0 and 1"))).
Proof.
  intros Hout out. split; [by apply hybrid_raises_outside|].
  subst out. rewrite retrieve_unfold.
  destruct (embedder_encode _ _ _) as [emb|e]; simpl.
  - unfold request_of. rewrite hybrid_raises_outside by done. simpl.
    by rewrite index_calls_embed.
  - by rewrite index_calls_embed.
Qed.

Lemma alpha_outside_no_index_query_witness :
  let out :=
    RetrieverAgent.retrieve_and_rerank (online [] sample_matches) sample_query
      35 5 (Finite 1.5) [] in
  hybrid_score_norm (online [] sample_matches) [Finite 0.25]
    (sparse_of sample_embedding) (Finite 1.5)
  = Raise (Exn ValueError (py "Alpha must be between 0 and 1"))
  /\ is_ok (fst out) = false
  /\ index_calls (snd out) = index_calls []
  /\ (is_ok (embedder_encode (online [] sample_matches) []
               (RetrieverAgent._compose_search_query sample_query)) = true ->
      fst out = Raise (Exn ValueError (py "Alpha must be between 0 and 1"))).
Proof.
  apply (alpha_outside_no_index_query (online [] sample_matches) sample_query
           35 5 (Finite 1.5) [] [Finite 0.25] (sparse_of sample_embedding)).
  right. reflexivity.
Defined.

(** A NaN weight is not caught by the guard: both comparisons are false. *)
Remark hybrid_score_norm_nan (env : Services) (dense : list pyfloat)
  (sparse : SparseVector) :
  is_ok (hybrid_score_norm env dense sparse NaN) = true.
Proof. reflexivity. Qed.

(** C6, counterexample. The claim that the retriever returns an empty
    sequence when the embedder fails does not hold: with the embedder down and the default weight the
    retriever raises the embedder's exception. *)
Lemma retrieve_raises_when_embedder_fails :
  in_unit_interval (Finite 0.5)
  /\ fst (RetrieverAgent.retrieve_and_rerank offline sample_query 35 5
            (Finite 0.5) [])
     = Raise service_error.
Proof. split; [split; apply Qle_bool_iff; reflexivity|reflexivity]. Qed.

(** C6, amended. For a weight in the interval from 0 to 1: when the embedder
    answers, the retriever does not raise, and it returns the empty list when
    the query of the index fails; when the embedder raises, the retriever
    raises the same exception. *)
Theorem retrieve_fails_closed_on_index (env : Services)
  (enhanced : EnhancedQuery) (top_k_initial top_k_final : Z) (alpha : pyfloat)
  (tr : trace) :
  in_unit_interval alpha ->
  let q := RetrieverAgent._compose_search_query enhanced in
  let out :=
    fst (RetrieverAgent.retrieve_and_rerank env enhanced top_k_initial
           top_k_final alpha tr) in
  match embedder_encode env tr q with
  | Ok emb =>
      exists req chunks,
        request_of env emb top_k_final alpha = Ok req
        /\ out = Ok chunks
        /\ (is_ok (index_query env (tr ++ [EmbedCall q]) req) = false ->
            chunks = [])
  | Raise e => out = Raise e
  end.
Proof.
  intros Hin q out. subst out. rewrite retrieve_unfold. fold q.
  destruct (embedder_encode env tr q) as [emb|e]; [|done].
  unfold request_of.
  destruct (hybrid_ok_inside env (dense_vecs emb) (sparse_of emb) alpha Hin)
    as [[hd hs] ->].
  simpl. destruct (index_query _ _ _) as [[|r rs]|e] eqn:E;
    (eexists; eexists; split; [reflexivity|]; split; [reflexivity|]);
    rewrite E; done.
Qed.

Lemma retrieve_fails_closed_on_index_witness :
  exists req chunks,
    request_of (services (fun _ _ _ => Raise service_error)
                  (fun _ _ => Ok sample_embedding)
                  (fun _ _ => Raise service_error))
      sample_embedding 5 (Finite 0.5) = Ok req
    /\ fst (RetrieverAgent.retrieve_and_rerank
              (services (fun _ _ _ => Raise service_error)
                 (fun _ _ => Ok sample_embedding)
                 (fun _ _ => Raise service_error))
              sample_query 35 5 (Finite 0.5) []) = Ok chunks
    /\ (is_ok (index_query
                 (services (fun _ _ _ => Raise service_error)
                    (fun _ _ => Ok sample_embedding)
                    (fun _ _ => Raise service_error))
                 ([] ++ [EmbedCall
                           (RetrieverAgent._compose_search_query sample_query)])
                 req) = false ->
        chunks = []).
Proof.
  apply (retrieve_fails_closed_on_index
           (services (fun _ _ _ => Raise service_error)
              (fun _ _ => Ok sample_embedding)
              (fun _ _ => Raise service_error))
           sample_query 35 5 (Finite 0.5) []).
  split; apply Qle_bool_iff; reflexivity.
Defined.



Example first_occurrences_sample :
  first_occurrences sample_matches
  = [sample_match (py "doc-1") (py "first text");
     sample_match (py "doc-2") (py "second text")].
Proof. reflexivity. Qed.

(** ** The stable sort *)

Section SortFacts.
Context {A : Type} (key : A -> nat).
Implicit Types (x y : A) (l : list A).

Ltac leb_cases :=
  repeat match goal with
         | |- context [?a <=? ?b] => destruct (Nat.leb_spec a b)
         end.

Lemma insert_by_perm x l : insert_by key x l ≡ₚ x :: l.
Proof.
  induction l as [|y l IH]; simpl; [done|].
  destruct (key x <=? key y); [done|].
  rewrite IH. apply perm_swap.
Qed.

Lemma sort_by_perm l : sort_by key l ≡ₚ l.
Proof.
  induction l as [|x l IH]; simpl; [done|].
  by rewrite insert_by_perm, IH.
Qed.

Lemma sort_by_length l : length (sort_by key l) = length l.
Proof. by rewrite sort_by_perm. Qed.

(** Two insertions commute unless they insert different elements with the
    same key. *)
Lemma insert_by_comm x y l :
  key x <> key y ->
  insert_by key x (insert_by key y l) = insert_by key y (insert_by key x l).
Proof.
  intros Hxy. induction l as [|z l IH]; simpl.
  - leb_cases; simpl; leb_cases; (done || lia).
  - leb_cases; simpl; leb_cases; try (done || lia). by rewrite IH.
Qed.

(** The result of the sort depends on the order of its input only between
    elements with the same key. *)
Lemma sort_by_perm_eq `{!EqDecision A} l1 l2 :
  l1 ≡ₚ l2 ->
  (forall x y, x ∈ l1 -> y ∈ l1 -> key x = key y -> x = y) ->
  sort_by key l1 = sort_by key l2.
Proof.
  induction 1 as [|x l1 l2 Hp IH|x y l|l1 l2 l3 Hp1 IH1 Hp2 IH2];
    intros Hinj; simpl.
  - done.
  - rewrite IH; [done|]. intros a b Ha Hb. apply Hinj; by right.
  - destruct (decide (key y = key x)) as [E|E].
    + assert (y = x) as -> by (apply Hinj; [left|right; left|]; done). done.
    + by apply insert_by_comm.
  - rewrite IH1 by done. apply IH2.
    intros a b Ha Hb. apply Hinj; by rewrite Hp1.
Qed.

(** A list whose keys do not decrease is left as it is. *)
Lemma sort_by_sorted l :
  Sorted (fun x y => key x <= key y) l -> sort_by key l = l.
Proof.
  induction 1 as [|x l Hs IH Hhd]; simpl; [done|].
  rewrite IH. destruct Hhd as [|y l' Hxy]; simpl; [done|].
  by apply Nat.leb_le in Hxy as ->.
Qed.

End SortFacts.

Lemma sort_by_map {A B} (f : A -> B) (key : B -> nat) (l : list A) :
  map f (sort_by (fun a => key (f a)) l) = sort_by key (map f l).
Proof.
  induction l as [|x l IH]; simpl; [done|]. rewrite <- IH.
  generalize (sort_by (fun a => key (f a)) l). intros k.
  induction k as [|y k IHk]; simpl; [done|].
  destruct (key (f x) <=? key (f y)); simpl; [done|]. by rewrite IHk.
Qed.

(** ** The index of the questions *)

Section IndexFacts.
Implicit Types (qs : list str) (q : str) (m : gmap str nat).

Lemma index_from_cons k q qs m :
  index_from k (q :: qs) m = index_from (S k) qs (<[q := k]> m).
Proof.
  unfold index_from. simpl. rewrite Nat.add_0_r. f_equal.
  apply imap_ext. intros j x _. simpl. f_equal. lia.
Qed.

Lemma index_from_lookup_Some qs : forall k m q i,
  index_from k qs m !! q = Some i ->
  ((q ∉ qs) /\ m !! q = Some i)
  \/ (exists j, i = k + j /\ qs !! j = Some q
                /\ forall j', j < j' -> qs !! j' <> Some q).
Proof.
  induction qs as [|p qs IH]; intros k m q i.
  - intros H. left. split; [apply not_elem_of_nil|done].
  - rewrite index_from_cons. intros H.
    destruct (IH _ _ _ _ H) as [[Hnin Hm]|(j & -> & Hj & Hlast)].
    + destruct (decide (p = q)) as [->|Hne].
      * rewrite lookup_insert_eq in Hm. injection Hm as <-.
        right. exists 0. split; [lia|]. split; [done|].
        intros [|j'] Hlt; [lia|]. simpl. intros Hq.
        apply Hnin. by eapply list_elem_of_lookup_2.
      * rewrite lookup_insert_ne in Hm by done. left.
        split; [|done]. rewrite not_elem_of_cons. split; [congruence|done].
    + right. exists (S j). split; [lia|]. split; [done|].
      intros [|j'] Hlt; [lia|]. simpl. apply Hlast. lia.
Qed.

Lemma index_from_lookup_is_Some qs : forall k m q,
  q ∈ qs \/ is_Some (m !! q) -> is_Some (index_from k qs m !! q).
Proof.
  induction qs as [|p qs IH]; intros k m q.
  - intros [H|H]; [by apply elem_of_nil in H|done].
  - rewrite index_from_cons. intros H. apply IH.
    destruct (decide (p = q)) as [->|Hne].
    + right. rewrite lookup_insert_eq. eauto.
    + rewrite lookup_insert_ne by done.
      destruct H as [H|H]; [|by right].
      apply elem_of_cons in H as [->|H]; [done|by left].
Qed.

(** The index maps a question of the list to its last position. *)
Lemma question_to_index_last qs q i :
  question_to_index qs !! q = Some i ->
  qs !! i = Some q /\ forall j, i < j -> qs !! j <> Some q.
Proof.
  intros H. destruct (index_from_lookup_Some qs 0 ∅ q i H)
    as [[_ Hm]|(j & -> & Hj & Hlast)]; [by rewrite lookup_empty in Hm|].
  done.
Qed.

Lemma question_to_index_is_Some qs q :
  q ∈ qs -> is_Some (question_to_index qs !! q).
Proof. intros H. apply (index_from_lookup_is_Some qs 0 ∅ q). by left. Qed.

End IndexFacts.

(** ** The enhancer *)

(** The enhancer never raises, and what it returns is the validated reply of
    the model or the fallback. *)
Lemma enhance_query_cases (env : Services) (q : str) (tr : trace) :
  QueryEnhancerAgent.enhance_query env q tr
  = (Ok (enhanced_by env q tr), tr ++ [LlmCall (enhancer_prompt env q) 512]).
Proof.
  unfold enhanced_by, QueryEnhancerAgent.enhance_query, try_except, bind,
    generate_content, call, lift, ret.
  destruct (llm_generate _ _ _ _) as [text|e]; [|done].
  destruct (QueryEnhancerAgent._extract_json env text) as [data|e]; [|done].
  by destruct (QueryEnhancerAgent.validate env data).
Qed.

(** On the fallback path the raw query is the question. *)
Lemma fallback_raw_query (q : str) :
  raw_query (QueryEnhancerAgent.fallback q) = q.
Proof. reflexivity. Qed.

(** When the model cannot be reached the enhancer takes the fallback. *)
Lemma enhance_query_model_down (env : Services) (q : str) (tr : trace) (e : exn) :
  llm_generate env tr (enhancer_prompt env q) 512 = Raise e ->
  enhanced_by env q tr = QueryEnhancerAgent.fallback q.
Proof.
  intros H. unfold enhanced_by, QueryEnhancerAgent.enhance_query, try_except,
    bind, generate_content, call. by rewrite H.
Qed.

(** C9, at an input where the code leaves the invariant: the model answers
    with a record that is valid for the schema and whose [raw_query] rewords
    the question; the enhancer returns that record, so the raw query of the
    result is the text of the model and not the question. *)
Theorem enhance_query_trusts_model_raw_query :
  exists enhanced,
    fst (QueryEnhancerAgent.enhance_query (online paraphrasing_reply [])
           sample_question []) = Ok enhanced
    /\ raw_query enhanced = py "Is knee surgery covered?"
    /\ raw_query enhanced <> sample_question.
Proof.
  eexists. split; [vm_compute; reflexivity|]. split; [reflexivity|].
  vm_compute. discriminate.
Qed.

(** ** One unit *)

Lemma extract_decision_error (env : Services) (e : exn) :
  extract_decision_from_answer env (GeneratorAgent.error_answer e) = py "Error".
Proof. reflexivity. Qed.

Lemma extract_decision_not_found (env : Services) :
  extract_decision_from_answer env GeneratorAgent.not_found = py "Not Found".
Proof. reflexivity. Qed.

(** With chunks, the generator returns what its attempt returns, and the
    Error object for the exception its attempt raises. *)
Lemma generate_answer_absorbs (env : Services) (q : str) (c : Chunk)
  (chunks : list Chunk) (tr : trace) :
  GeneratorAgent.generate_answer env q (c :: chunks) tr
  = match generation_attempt env q (c :: chunks) tr with
    | (Ok answer, tr') => (Ok answer, tr')
    | (Raise e, tr') => (Ok (GeneratorAgent.error_answer e), tr')
    end.
Proof. reflexivity. Qed.

(** A unit, case by case on the retriever. *)
Lemma process_single_question_cases (env : Services) (q : str) (tr : trace) :
  let tr1 := tr ++ [LlmCall (enhancer_prompt env q) 512] in
  let enhanced := enhanced_by env q tr in
  process_single_question env q tr
  = match RetrieverAgent.retrieve_and_rerank env enhanced 35 5 (Finite 0.5) tr1
    with
    | (Raise e, tr2) => (Ok (Failure q (exn_str e)), tr2)
    | (Ok chunks, tr2) =>
        match GeneratorAgent.generate_answer env q chunks tr2 with
        | (Ok answer, tr3) =>
            (Ok (Success q enhanced chunks answer
                   (extract_decision_from_answer env answer)), tr3)
        | (Raise e, tr3) => (Ok (Failure q (exn_str e)), tr3)
        end
    end.
Proof.
  intros tr1 enhanced.
  unfold process_single_question, try_except, bind.
  rewrite enhance_query_cases. fold tr1 enhanced.
  destruct (RetrieverAgent.retrieve_and_rerank _ _ _ _ _ _) as [[chunks|e] tr2];
    [|done].
  by destruct (GeneratorAgent.generate_answer _ _ _ _) as [[answer|e] tr3].
Qed.

(** A unit returns a result for the question it was given. *)
Lemma process_single_question_question (env : Services) (q : str) (tr : trace) :
  exists r, fst (process_single_question env q tr) = Ok r /\ question r = q.
Proof.
  rewrite process_single_question_cases.
  destruct (RetrieverAgent.retrieve_and_rerank _ _ _ _ _ _) as [[chunks|e] tr2];
    [|by eexists].
  destruct (GeneratorAgent.generate_answer _ _ _ _) as [[answer|e] tr3];
    by eexists.
Qed.

(** C10, counterexample. The claim that a failure inside the retriever never
    gives a result of status error does not hold: with the embedder down the unit returns the
    error shape. *)
Lemma embedder_failure_gives_error_status :
  fst (process_single_question offline (py "q") [])
  = Ok (Failure (py "q") (py "service unavailable"))
  /\ status (Failure (py "q") (py "service unavailable")) = py "error".
Proof. split; reflexivity. Qed.

(** What a unit returns once the retriever has returned [chunks]. *)
Lemma unit_after_retrieval (env : Services) (q : str) (enhanced : EnhancedQuery)
  (chunks : list Chunk) (tr2 : trace) :
  exists r answer,
    fst (match GeneratorAgent.generate_answer env q chunks tr2 with
         | (Ok answer, tr3) =>
             (Ok (Success q enhanced chunks answer
                    (extract_decision_from_answer env answer)), tr3)
         | (Raise e, tr3) => (Ok (Failure q (exn_str e)), tr3)
         end) = Ok r
    /\ status r = py "success"
    /\ r = Success q enhanced chunks answer
             (extract_decision_from_answer env answer)
    /\ fst (GeneratorAgent.generate_answer env q chunks tr2) = Ok answer
    /\ (chunks <> [] ->
        forall e, fst (generation_attempt env q chunks tr2) = Raise e ->
                  answer = GeneratorAgent.error_answer e
                  /\ extract_decision_from_answer env answer = py "Error").
Proof.
  destruct chunks as [|c chunks].
  - do 2 eexists. split; [reflexivity|]. repeat split; done.
  - rewrite generate_answer_absorbs.
    destruct (generation_attempt env q (c :: chunks) tr2) as [[answer|e1] tr3].
    + do 2 eexists. split; [reflexivity|]. repeat split; done.
    + do 2 eexists. split; [reflexivity|]. repeat split; try done.
      all: simpl in *; congruence.
Qed.

(** With the default weight the retriever raises exactly when the embedder
    does. *)
Lemma retrieval_ok_iff_embedding (env : Services) (q : str) (tr : trace) :
  is_ok (fst (retrieval env q tr)) = is_ok (embedding_answer env q tr).
Proof.
  unfold retrieval, embedding_answer. rewrite retrieve_unfold.
  destruct (embedder_encode _ _ _) as [emb|e]; [|done].
  destruct (hybrid_ok_inside env (dense_vecs emb) (sparse_of emb) (Finite 0.5))
    as [[hd hs] Hh]; [split; apply Qle_bool_iff; reflexivity|].
  unfold request_of. rewrite Hh. simpl.
  by destruct (index_query _ _ _) as [[|m ms]|e0].
Qed.

(** C10, amended. A unit always returns a result.  Its retriever raises
    exactly when the embedder raises, and then the result has the error
    shape with the message of that exception.  Otherwise the result has
    status success, whatever failed in the enhancer, in the query of the
    index or in the generator; and when the attempt of the generator raises,
    the answer is the Error object and the generated answer is the string
    Error. *)
Theorem absorbed_failures_keep_success (env : Services) (q : str) (tr : trace) :
  let out := fst (process_single_question env q tr) in
  is_ok (fst (retrieval env q tr)) = is_ok (embedding_answer env q tr)
  /\ match retrieval env q tr with
     | (Raise e, _) =>
         out = Ok (Failure q (exn_str e))
         /\ status (Failure q (exn_str e)) = py "error"
     | (Ok chunks, tr2) =>
         exists r answer,
           out = Ok r
           /\ status r = py "success"
           /\ r = Success q (enhanced_by env q tr) chunks answer
                    (extract_decision_from_answer env answer)
           /\ fst (GeneratorAgent.generate_answer env q chunks tr2) = Ok answer
           /\ (chunks <> [] ->
               forall e,
                 fst (generation_attempt env q chunks tr2) = Raise e ->
                 answer = GeneratorAgent.error_answer e
                 /\ extract_decision_from_answer env answer = py "Error")
     end.
Proof.
  intros out. split; [apply retrieval_ok_iff_embedding|]. subst out.
  rewrite process_single_question_cases. unfold retrieval.
  rewrite enhance_query_cases. simpl snd.
  destruct (RetrieverAgent.retrieve_and_rerank _ _ _ _ _ _) as [[chunks|e] tr2];
    [|done].
  apply unit_after_retrieval.
Qed.

(** ** The batch *)

Section BatchFacts.
Context (env : Services).
Implicit Types (questions : list str) (runs : nat -> UnitRun) (f : Future).

(** A completed future hands over its outcome whenever it completed: the
    timeout of [result] starts when the future is yielded, which is when it
    has completed. *)
Lemma future_result_completed f t timeout :
  fut_done_at f = Some t ->
  future_result f (done_time f) timeout = fut_outcome f.
Proof.
  intros H. unfold future_result, done_time. rewrite H. simpl.
  by destruct (Nat.leb_spec t (t + timeout)); [|lia].
Qed.

(** The futures the loop receives have completed, so no call of [result] in
    the loop times out. *)
Lemma as_completed_done T (fs : list Future) f :
  f ∈ as_completed T fs -> exists t, fut_done_at f = Some t /\ t <= T.
Proof.
  unfold as_completed. rewrite sort_by_perm, list_elem_of_In, filter_In.
  intros [_ H]. unfold done_by in H.
  destruct (fut_done_at f) as [t|]; [|done]. exists t.
  by apply Nat.leb_le in H.
Qed.

Lemma timeout_never_expires T (fs : list Future) f timeout :
  f ∈ as_completed T fs ->
  future_result f (done_time f) timeout = fut_outcome f.
Proof.
  intros (t & Ht & _)%as_completed_done. by eapply future_result_completed.
Qed.

Lemma collect_completed f t r :
  fut_done_at f = Some t -> fut_outcome f = Ok r -> collect f = r.
Proof.
  intros Ht Hr. unfold collect. by rewrite (future_result_completed f t), Hr.
Qed.

Lemma collect_submit_question q run :
  question (collect (submit env q run)) = q.
Proof.
  unfold collect, future_result. simpl.
  destruct (run_done_at run) as [t|]; [|done].
  destruct (_ <=? _); [|done].
  destruct (process_single_question_question env q (run_trace run))
    as (r & -> & Hq). done.
Qed.

Lemma filter_all {A} (p : A -> bool) (l : list A) :
  forallb p l = true -> List.filter p l = l.
Proof.
  induction l as [|x l IH]; simpl; [done|].
  intros [-> H]%andb_true_iff. by rewrite IH.
Qed.

Lemma forallb_imap {A B} (p : B -> bool) (g : nat -> A -> B) (l : list A) :
  forallb p (imap g l) = true <->
  forall i x, l !! i = Some x -> p (g i x) = true.
Proof.
  revert g. induction l as [|y l IH]; intros g; simpl.
  { split; [by intros _ i x|done]. }
  rewrite andb_true_iff, IH. split.
  - intros [H0 H] [|i] x; simpl; [by intros [= <-]|apply H].
  - intros H. split; [by apply (H 0)|]. intros i x. apply (H (S i)).
Qed.

Lemma map_question_collect questions runs (fs : list Future) :
  (forall f, f ∈ fs ->
     f ∈ imap (fun i q => submit env q (runs i)) questions) ->
  map question (map collect fs) = map fut_question fs.
Proof.
  induction fs as [|f fs IH]; intros H; simpl; [done|].
  rewrite IH by (intros g Hg; apply H; by right). f_equal.
  destruct (list_elem_of_lookup_1 _ _ (H f ltac:(left))) as [i Hi].
  rewrite list_lookup_imap in Hi.
  destruct (questions !! i) as [q|]; [|done]. injection Hi as <-.
  apply collect_submit_question.
Qed.

Lemma map_fut_question_imap questions runs :
  map fut_question (imap (fun i q => submit env q (runs i)) questions)
  = questions.
Proof.
  revert runs. induction questions as [|q qs IH]; intros runs; simpl; [done|].
  f_equal. apply (IH (fun i => runs (S i))).
Qed.

Lemma order_key_inj questions q1 q2 :
  q1 ∈ questions -> q2 ∈ questions ->
  order_key questions q1 = order_key questions q2 -> q1 = q2.
Proof.
  unfold order_key. intros [i1 H1]%question_to_index_is_Some
    [i2 H2]%question_to_index_is_Some. rewrite H1, H2. simpl. intros <-.
  apply question_to_index_last in H1 as [H1 _].
  apply question_to_index_last in H2 as [H2 _]. congruence.
Qed.

(** When every unit has completed by [T] the call has returned one result
    per question, and the questions of the results are the questions of the
    input sorted by the last position of each question: the order in which
    the units completed plays no part in it. *)
Lemma batch_returns T questions max_workers runs :
  questions <> [] ->
  (0 < max_workers)%Z ->
  (forall i, i < length questions ->
     exists t, run_done_at (runs i) = Some t /\ t <= T) ->
  exists out,
    process_questions_parallel env T questions max_workers runs = Some (Ok out)
    /\ length out = length questions
    /\ map question out = sort_by (order_key questions) questions.
Proof.
  intros Hne Hw Hdone. unfold process_questions_parallel.
  destruct questions as [|q0 qs] eqn:Eq; [done|]. rewrite <- Eq in *. clear Hne.
  destruct (Z.leb_spec max_workers 0); [lia|].
  set (futures := imap (fun i q => submit env q (runs i)) questions).
  assert (forallb (done_by T) futures = true) as Hall.
  { apply forallb_imap. intros i q Hi. unfold done_by. simpl.
    destruct (Hdone i) as (t & -> & Ht); [by eapply lookup_lt_Some|].
    by apply Nat.leb_le. }
  rewrite Hall. eexists. split; [reflexivity|].
  unfold as_completed. rewrite (filter_all _ _ Hall). split.
  - rewrite sort_by_length, length_map, sort_by_length.
    unfold futures. by rewrite length_imap.
  - rewrite (sort_by_map question (order_key questions)).
    rewrite (map_question_collect questions runs)
      by (intros f; by rewrite sort_by_perm).
    assert (map fut_question (sort_by done_time futures) ≡ₚ questions) as Hp.
    { etrans; [apply Permutation_map, sort_by_perm|].
      unfold futures. by rewrite map_fut_question_imap. }
    apply (sort_by_perm_eq _ _ _ Hp).
    intros x y Hx Hy. rewrite Hp in Hx, Hy. by apply order_key_inj.
Qed.

Lemma keys_in_order (key : str -> nat) (l : list str) : forall k0,
  (forall i x, l !! i = Some x -> key x = k0 + i) ->
  Sorted (fun x y => key x <= key y) l.
Proof.
  induction l as [|x l IH]; intros k0 H; [constructor|].
  constructor.
  - apply (IH (S k0)). intros i y Hy. rewrite (H (S i) y Hy). lia.
  - destruct l as [|y l]; constructor.
    rewrite (H 0 x eq_refl), (H 1 y eq_refl). lia.
Qed.

(** For questions that are all different the sort by last position is the
    order of the input. *)
Lemma sort_distinct_questions questions :
  NoDup questions -> sort_by (order_key questions) questions = questions.
Proof.
  intros Hnd. apply sort_by_sorted, (keys_in_order _ _ 0).
  intros i x Hi. unfold order_key.
  destruct (question_to_index_is_Some questions x) as [j Hj];
    [by eapply list_elem_of_lookup_2|].
  rewrite Hj. simpl. apply question_to_index_last in Hj as [Hj _].
  by eapply NoDup_lookup.
Qed.

(** The order of the input is kept for questions that are all different. *)
Lemma batch_distinct_in_order T questions max_workers runs :
  questions <> [] ->
  NoDup questions ->
  (0 < max_workers)%Z ->
  (forall i, i < length questions ->
     exists t, run_done_at (runs i) = Some t /\ t <= T) ->
  exists out,
    process_questions_parallel env T questions max_workers runs = Some (Ok out)
    /\ length out = length questions
    /\ map question out = questions.
Proof.
  intros Hne Hnd Hw Hdone.
  destruct (batch_returns T questions max_workers runs Hne Hw Hdone)
    as (out & Hout & Hlen & Hq).
  exists out. by rewrite Hq, sort_distinct_questions.
Qed.

(** While a unit has not completed the call has not returned. *)
Lemma batch_waits T questions max_workers runs i q :
  questions !! i = Some q ->
  done_by T (submit env q (runs i)) = false ->
  (0 < max_workers)%Z ->
  process_questions_parallel env T questions max_workers runs = None.
Proof.
  intros Hi Hstuck Hw. unfold process_questions_parallel.
  destruct questions as [|q0 qs] eqn:Eq; [done|]. rewrite <- Eq in *.
  destruct (Z.leb_spec max_workers 0); [lia|].
  destruct (forallb _ _) eqn:Hall; [|done].
  rewrite forallb_imap in Hall. specialize (Hall i q Hi). congruence.
Qed.

End BatchFacts.

(** C1, at an input where the code leaves the order of the input: for the
    questions a, b, a, whatever the services answer and in whatever order the
    three units complete, the call returns three results whose questions are
    b, a, a.  The index of the final sort holds one position per question
    text, the last, so both results for a are placed after the result for
    b. *)
Theorem duplicate_question_breaks_order (env : Services) (T : nat)
  (max_workers : Z) (runs : nat -> UnitRun) :
  (0 < max_workers)%Z ->
  (forall i, i < 3 -> exists t, run_done_at (runs i) = Some t /\ t <= T) ->
  exists out,
    process_questions_parallel env T [py "a"; py "b"; py "a"] max_workers runs
    = Some (Ok out)
    /\ length out = 3
    /\ map question out = [py "b"; py "a"; py "a"].
Proof.
  intros Hw Hdone.
  destruct (batch_returns env T [py "a"; py "b"; py "a"] max_workers runs)
    as (out & Hout & Hlen & Hq); [done|done|exact Hdone|].
  exists out. split; [done|]. split; [done|]. rewrite Hq. by vm_compute.
Qed.

Lemma duplicate_question_breaks_order_witness :
  exists out,
    process_questions_parallel offline 10 [py "a"; py "b"; py "a"] 2
      (sample_runs [Some 3; Some 1; Some 2])
    = Some (Ok out)
    /\ length out = 3
    /\ map question out = [py "b"; py "a"; py "a"].
Proof.
  apply (duplicate_question_breaks_order offline 10 2
           (sample_runs [Some 3; Some 1; Some 2])); [lia|].
  intros [|[|[|i]]] Hi; [exists 3|exists 1|exists 2|lia];
    (split; [reflexivity|lia]).
Defined.

(** C2, where the code leaves the claim: a unit that never completes does
    not become an error result.  The loop only receives futures that have
    completed, so the timeout of [result] never expires; as long as one unit
    has not completed the call has not returned, at any time. *)
Theorem stuck_unit_blocks_the_batch (env : Services) (T : nat)
  (questions : list str) (max_workers : Z) (runs : nat -> UnitRun)
  (i : nat) (q : str) :
  questions !! i = Some q ->
  run_done_at (runs i) = None ->
  (0 < max_workers)%Z ->
  process_questions_parallel env T questions max_workers runs = None.
Proof.
  intros Hi Hnever Hw. eapply batch_waits; [exact Hi| |exact Hw].
  unfold done_by. simpl. by rewrite Hnever.
Qed.

Lemma stuck_unit_blocks_the_batch_witness :
  process_questions_parallel offline 1000 [py "a"; py "b"] 2
    (sample_runs [None; Some 1]) = None.
Proof.
  apply (stuck_unit_blocks_the_batch offline 1000 [py "a"; py "b"] 2
           (sample_runs [None; Some 1]) 0 (py "a"));
    [reflexivity|reflexivity|lia].
Defined.

(** A unit that completes after more than 30 time units is not timed out
    either: its own result is collected. *)
Example late_unit_keeps_its_result :
  map (fun r => (question r, status r))
      (match process_questions_parallel (online [] []) 100 [py "a"; py "b"] 2
               (sample_runs [Some 100; Some 1]) with
       | Some (Ok out) => out
       | _ => []
       end)
  = [(py "a", py "success"); (py "b", py "success")].
Proof. vm_compute. reflexivity. Qed.

(** * Further properties of the code *)

(** ** The retriever: deduplication and the request *)

Section DedupFacts.
Implicit Types (rest acc : list Match) (seen : gset (option str)).

(** The loop keeps, after what it has already kept, a sublist of the matches
    it reads; the ids it has kept stay pairwise different and cover every id
    it has read. *)
Lemma unique_loop_inv rest : forall seen acc,
  (forall x, x ∈ seen <-> x ∈ map match_id acc) ->
  NoDup (map match_id acc) ->
  exists kept,
    RetrieverAgent.unique_loop rest seen acc = acc ++ kept
    /\ sublist kept rest
    /\ NoDup (map match_id (acc ++ kept))
    /\ (forall x, x ∈ map match_id (acc ++ kept)
                  <-> x ∈ map match_id acc \/ x ∈ map match_id rest).
Proof.
  induction rest as [|r rest IH]; intros seen acc Hseen Hnd; simpl.
  - exists []. rewrite app_nil_r. split; [done|]. split; [constructor|].
    split; [done|]. intros x. rewrite elem_of_nil. tauto.
  - case_bool_decide as Hnew.
    + destruct (IH ({[match_id r]} ∪ seen) (acc ++ [r])) as (kept & E & Hs & Hn & Hi).
      * intros x. rewrite map_app, elem_of_app, elem_of_union, <- Hseen.
        simpl. rewrite elem_of_singleton, list_elem_of_singleton. tauto.
      * rewrite map_app. simpl. apply NoDup_app. split; [done|].
        split; [|apply NoDup_singleton].
        intros x Hx ->%list_elem_of_singleton. apply Hnew. by apply Hseen.
      * exists (r :: kept). rewrite E, <- app_assoc. simpl.
        split; [done|]. split; [by constructor|].
        rewrite <- app_assoc in Hn, Hi. simpl in Hn, Hi. split; [done|].
        intros x. rewrite Hi, map_app, elem_of_app. simpl.
        rewrite list_elem_of_singleton, elem_of_cons. tauto.
    + destruct (IH seen acc Hseen Hnd) as (kept & E & Hs & Hn & Hi).
      exists kept. split; [done|]. split; [by constructor|]. split; [done|].
      intros x. rewrite Hi, elem_of_cons. split; [tauto|].
      intros [H|[->|H]]; [tauto| |tauto].
      left. apply Hseen. exact Hnew.
Qed.

(** A response whose ids are pairwise different is kept whole. *)
Lemma unique_loop_nodup rest : forall seen acc,
  NoDup (map match_id rest) ->
  (forall x, x ∈ map match_id rest -> x ∉ seen) ->
  RetrieverAgent.unique_loop rest seen acc = acc ++ rest.
Proof.
  induction rest as [|r rest IH]; intros seen acc Hnd Hfresh; simpl.
  { by rewrite app_nil_r. }
  apply NoDup_cons in Hnd as [Hr Hnd].
  rewrite bool_decide_true by (apply Hfresh; left).
  rewrite IH; [by rewrite <- app_assoc|done|].
  intros x Hx. rewrite elem_of_union, elem_of_singleton.
  intros [->|H]; [done|]. by apply (Hfresh x); [right|].
Qed.

End DedupFacts.

(** X1. The chunks the retriever returns are the images of a sublist of the
    index response, in the order of the response; the matches behind them
    have pairwise different ids, and every id of the response is the id of
    one of them. *)
Theorem retrieve_one_match_per_id (env : Services) (enhanced : EnhancedQuery)
  (top_k_initial top_k_final : Z) (alpha : pyfloat) (tr : trace)
  (emb : Embedding) (req : IndexRequest) (matches : list Match) :
  let q := RetrieverAgent._compose_search_query enhanced in
  embedder_encode env tr q = Ok emb ->
  request_of env emb top_k_final alpha = Ok req ->
  index_query env (tr ++ [EmbedCall q]) req = Ok matches ->
  exists kept,
    fst (RetrieverAgent.retrieve_and_rerank env enhanced top_k_initial
           top_k_final alpha tr) = Ok (map RetrieverAgent.final_result kept)
    /\ sublist kept matches
    /\ NoDup (map match_id kept)
    /\ (forall id, id ∈ map match_id kept <-> id ∈ map match_id matches).
Proof.
  intros q Hemb Hreq Hidx. rewrite retrieve_unfold. fold q.
  rewrite Hemb, Hreq, Hidx. simpl.
  destruct (unique_loop_inv matches ∅ []) as (kept & E & Hs & Hn & Hi).
  { intros x. simpl. rewrite elem_of_empty, elem_of_nil. tauto. }
  { constructor. }
  simpl in E, Hn, Hi. exists kept. split.
  - destruct matches as [|m ms]; [|by rewrite E].
    simpl in E. by rewrite <- E.
  - split; [done|]. split; [done|]. intros id. rewrite Hi, elem_of_nil. tauto.
Qed.

Lemma retrieve_one_match_per_id_witness :
  exists kept,
    fst (RetrieverAgent.retrieve_and_rerank (online [] sample_matches)
           sample_query 35 5 (Finite 0.5) [])
    = Ok (map RetrieverAgent.final_result kept)
    /\ sublist kept sample_matches
    /\ NoDup (map match_id kept)
    /\ (forall id, id ∈ map match_id kept <-> id ∈ map match_id sample_matches).
Proof.
  eapply (retrieve_one_match_per_id (online [] sample_matches) sample_query
            35 5 (Finite 0.5) []); reflexivity.
Defined.

(** X2. When the ids of the index response are pairwise different the
    retriever returns one chunk for every match, in the order of the
    response, with the score of the index, or 0.0 for a match without
    score. *)
Theorem retrieve_distinct_ids_kept (env : Services) (enhanced : EnhancedQuery)
  (top_k_initial top_k_final : Z) (alpha : pyfloat) (tr : trace)
  (emb : Embedding) (req : IndexRequest) (matches : list Match) :
  let q := RetrieverAgent._compose_search_query enhanced in
  embedder_encode env tr q = Ok emb ->
  request_of env emb top_k_final alpha = Ok req ->
  index_query env (tr ++ [EmbedCall q]) req = Ok matches ->
  NoDup (map match_id matches) ->
  fst (RetrieverAgent.retrieve_and_rerank env enhanced top_k_initial
         top_k_final alpha tr)
  = Ok (map (fun m => {| chunk_score := default (Finite 0) (match_score m);
                         chunk_metadata := match_metadata m |}) matches).
Proof.
  intros q Hemb Hreq Hidx Hnd. rewrite retrieve_unfold. fold q.
  rewrite Hemb, Hreq, Hidx. simpl.
  destruct matches as [|m ms]; [done|].
  rewrite unique_loop_nodup; [done|done|].
  intros x _. apply not_elem_of_empty.
Qed.

Lemma retrieve_distinct_ids_kept_witness :
  fst (RetrieverAgent.retrieve_and_rerank
         (online [] (take 2 sample_matches)) sample_query 35 5 (Finite 0.5) [])
  = Ok (map (fun m => {| chunk_score := default (Finite 0) (match_score m);
                         chunk_metadata := match_metadata m |})
            (take 2 sample_matches)).
Proof.
  eapply (retrieve_distinct_ids_kept (online [] (take 2 sample_matches))
            sample_query 35 5 (Finite 0.5) []); try reflexivity.
  apply (bool_decide_unpack _). vm_compute. exact I.
Defined.

(** X3. For a weight in the interval and an embedder that answers, the
    retriever makes one call of the embedder and then one query of the
    index and nothing else.  The query asks for [top_k_final] matches with
    their metadata in the namespace of the index; its dense vector has the
    length of the embedding, and its sparse vector holds the token indices
    of the weights that are not zero, with one value for each. *)
Theorem retrieve_request_shape (env : Services) (enhanced : EnhancedQuery)
  (top_k_initial top_k_final : Z) (alpha : pyfloat) (tr : trace)
  (emb : Embedding) :
  let q := RetrieverAgent._compose_search_query enhanced in
  in_unit_interval alpha ->
  embedder_encode env tr q = Ok emb ->
  exists req,
    snd (RetrieverAgent.retrieve_and_rerank env enhanced top_k_initial
           top_k_final alpha tr) = tr ++ [EmbedCall q; IndexCall req]
    /\ req_top_k req = top_k_final
    /\ req_include_metadata req = true
    /\ req_namespace req = index_namespace env
    /\ length (req_vector req) = length (dense_vecs emb)
    /\ sparse_indices (req_sparse_vector req)
       = map fst (List.filter (fun iv => fnonzero (snd iv))
                    (lexical_weights emb))
    /\ length (sparse_values (req_sparse_vector req))
       = length (sparse_indices (req_sparse_vector req)).
Proof.
  intros q Hin Hemb. rewrite retrieve_unfold. fold q. rewrite Hemb.
  unfold request_of.
  pose proof (hybrid_ok_inside env (dense_vecs emb) (sparse_of emb) alpha Hin)
    as [[hd hs] Hh].
  rewrite Hh. eexists. split; [simpl; by rewrite <- app_assoc|]. simpl.
  unfold hybrid_score_norm in Hh.
  destruct (_ || _); [done|]. injection Hh as <- <-. simpl.
  by rewrite !length_map.
Qed.

Lemma retrieve_request_shape_witness :
  exists req,
    snd (RetrieverAgent.retrieve_and_rerank (online [] sample_matches)
           sample_query 35 5 (Finite 0.5) [])
    = [] ++ [EmbedCall (RetrieverAgent._compose_search_query sample_query);
             IndexCall req]
    /\ req_top_k req = 5%Z
    /\ req_include_metadata req = true
    /\ req_namespace req = index_namespace (online [] sample_matches)
    /\ length (req_vector req) = length (dense_vecs sample_embedding)
    /\ sparse_indices (req_sparse_vector req)
       = map fst (List.filter (fun iv => fnonzero (snd iv))
                    (lexical_weights sample_embedding))
    /\ length (sparse_values (req_sparse_vector req))
       = length (sparse_indices (req_sparse_vector req)).
Proof.
  apply (retrieve_request_shape (online [] sample_matches) sample_query 35 5
           (Finite 0.5) [] sample_embedding);
    [split; apply Qle_bool_iff; reflexivity|reflexivity].
Defined.

(** ** The two JSON extractors and the text around the object *)

Section SpanFacts.
Implicit Types (s x a b m pre mid post : str) (c : N).

Lemma starts_with_length p x : starts_with p x = true -> length p <= length x.
Proof.
  revert x. induction p as [|e p IH]; intros [|y x]; simpl; try done; [lia|].
  intros [_ H]%andb_true_iff. apply IH in H. lia.
Qed.

Lemma starts_with_app p x c b :
  c ∉ p -> starts_with p (x ++ c :: b) = starts_with p x.
Proof.
  revert x. induction p as [|e p IH]; intros x Hc; [by destruct x|].
  apply not_elem_of_cons in Hc as [Hne Hc].
  destruct x as [|y x]; simpl.
  - destruct (N.eqb_spec e c); [congruence|done].
  - by rewrite IH.
Qed.

Lemma brace_not_in_fences c :
  is_brace c -> (c ∉ py "```json") /\ (c ∉ [LF]) /\ (c ∉ LF :: py "```").
Proof.
  intros [-> | ->]; repeat split;
    apply (bool_decide_unpack _); vm_compute; exact I.
Qed.

(** A brace is in no fence, so what follows a brace plays no part in a
    match that starts before it. *)
Lemma fence_match_app x c b :
  is_brace c -> fence_match (x ++ c :: b) = fence_match x.
Proof.
  intros (H1 & H2 & H3)%brace_not_in_fences. unfold fence_match.
  rewrite !starts_with_app by done.
  destruct (starts_with (py "```json") x) eqn:E; [|done].
  apply starts_with_length in E. change (length (py "```json")) with 7 in E.
  rewrite drop_app_le by done. by rewrite starts_with_app.
Qed.

Lemma fence_match_fits x n r : fence_match x = Some (n, r) -> n <= length x.
Proof.
  unfold fence_match.
  destruct (starts_with (py "```json") x) eqn:E1.
  - apply starts_with_length in E1. change (length (py "```json")) with 7 in E1.
    destruct (starts_with [LF] (drop 7 x)) eqn:E2; intros [= <- <-]; [|done].
    apply starts_with_length in E2. rewrite length_drop in E2. simpl in E2. lia.
  - destruct (starts_with (LF :: py "```") x) eqn:E2; [|done].
    intros [= <- <-]. by apply starts_with_length in E2.
Qed.

(** The substitution of the fences works on the two sides of a brace
    separately. *)
Lemma re_sub_fence_app c b : is_brace c -> forall x k,
  k <= length x ->
  re_sub fence_match k (x ++ c :: b)
  = re_sub fence_match k x ++ c :: re_sub fence_match 0 b.
Proof.
  intros Hc x. induction x as [|y x IH]; intros k Hk.
  - assert (k = 0) as -> by (simpl in Hk; lia).
    pose proof (fence_match_app [] c b Hc) as E. simpl in E |- *. by rewrite E.
  - destruct k as [|k]; simpl in Hk |- *.
    + pose proof (fence_match_app (y :: x) c b Hc) as E. simpl in E.
      rewrite E.
      destruct (fence_match (y :: x)) as [[[|n] r]|] eqn:Em.
      * by rewrite IH by lia.
      * apply fence_match_fits in Em. simpl in Em.
        rewrite IH by lia. by rewrite <- app_assoc.
      * by rewrite IH by lia.
    + apply IH. lia.
Qed.

Lemma drop_while_app_stop p a c r :
  p c = false -> drop_while p (a ++ c :: r) = drop_while p a ++ c :: r.
Proof.
  intros Hc. induction a as [|d a IH]; simpl; [by rewrite Hc|].
  by destruct (p d).
Qed.

Lemma last_index_app c m b :
  c ∉ b -> last_index c (m ++ c :: b) = Some (length m).
Proof.
  intros Hb. induction m as [|d m IH]; simpl.
  - by rewrite (last_index_none c b Hb), N.eqb_refl.
  - by rewrite IH.
Qed.

(** The search finds the text from the first opening brace to the last
    closing brace. *)
Lemma search_braces_span pre mid post :
  LBRACE ∉ pre -> RBRACE ∉ post ->
  search_braces (pre ++ LBRACE :: mid ++ RBRACE :: post)
  = Some (LBRACE :: mid ++ [RBRACE]).
Proof.
  intros Hpre Hpost. unfold search_braces.
  assert (drop_while (fun c => negb (c =? LBRACE)%N)
            (pre ++ LBRACE :: mid ++ RBRACE :: post)
          = LBRACE :: mid ++ RBRACE :: post) as ->.
  { induction pre as [|d pre IH]; simpl; [done|].
    apply not_elem_of_cons in Hpre as [Hd Hpre].
    destruct (N.eqb_spec d LBRACE); [congruence|]. simpl. by apply IH. }
  rewrite last_index_app by done. do 2 f_equal.
  change (mid ++ RBRACE :: post) with (mid ++ [RBRACE] ++ post).
  rewrite app_assoc. apply take_app_length'. rewrite length_app. simpl. lia.
Qed.

End SpanFacts.

Lemma strip_around (pre mid post : str) :
  exists pre' post',
    strip (pre ++ LBRACE :: mid ++ RBRACE :: post)
    = pre' ++ LBRACE :: mid ++ RBRACE :: post'
    /\ (forall x, x ∈ pre' -> x ∈ pre)
    /\ (forall x, x ∈ post' -> x ∈ post).
Proof.
  exists (drop_while is_space pre), (rev (drop_while is_space (rev post))).
  split; [|split].
  - unfold strip. rewrite drop_while_app_stop by done.
    set (pre' := drop_while is_space pre).
    replace (pre' ++ LBRACE :: mid ++ RBRACE :: post)
      with ((pre' ++ LBRACE :: mid) ++ RBRACE :: post)
      by (by rewrite <- app_assoc).
    rewrite rev_app_distr. simpl. rewrite <- app_assoc. simpl.
    rewrite drop_while_app_stop by done.
    rewrite rev_app_distr. simpl. rewrite rev_involutive.
    by rewrite <- !app_assoc.
  - apply drop_while_elem.
  - intros x. rewrite list_elem_of_In, <- in_rev, <- list_elem_of_In.
    intros H%drop_while_elem. by rewrite list_elem_of_In, <- in_rev,
      <- list_elem_of_In in H.
Qed.

Lemma re_sub_fence_elem (s : str) (k : nat) (x : N) :
  x ∈ re_sub fence_match k s -> x ∈ s.
Proof. apply re_sub_delete_elem, fence_match_deletes. Qed.

(** What the generator extracts from a text with an object in it: the
    object, with the fences inside it removed. *)
Lemma generator_span (pre mid post : str) :
  LBRACE ∉ pre -> RBRACE ∉ post ->
  search_braces
    (re_sub fence_match 0 (strip (pre ++ LBRACE :: mid ++ RBRACE :: post)))
  = Some (LBRACE :: re_sub fence_match 0 mid ++ [RBRACE]).
Proof.
  intros Hpre Hpost.
  destruct (strip_around pre mid post) as (pre' & post' & -> & Hp & Hq).
  rewrite (re_sub_fence_app LBRACE) by (by left || lia).
  rewrite (re_sub_fence_app RBRACE) by (by right || lia).
  apply search_braces_span.
  - intros H%re_sub_fence_elem. by apply Hpre, Hp.
  - intros H%re_sub_fence_elem. by apply Hpost, Hq.
Qed.

(** X4. The recovery parser of the generator reads the object only: the
    text before the first opening brace and the text after the last closing
    brace, whatever prose, whitespace or code fences they hold, do not change
    what it returns or raises. *)
Theorem generator_extract_ignores_surroundings (env : Services)
  (pre mid post : str) :
  LBRACE ∉ pre -> RBRACE ∉ post ->
  GeneratorAgent._extract_json env (pre ++ LBRACE :: mid ++ RBRACE :: post)
  = GeneratorAgent._extract_json env (LBRACE :: mid ++ [RBRACE]).
Proof.
  intros Hpre Hpost. unfold GeneratorAgent._extract_json.
  rewrite (generator_span pre mid post Hpre Hpost).
  pose proof (generator_span [] mid []) as E. simpl in E.
  by rewrite E by apply not_elem_of_nil.
Qed.

Lemma generator_extract_ignores_surroundings_witness :
  GeneratorAgent._extract_json offline
    (py "Here is the answer: " ++ LBRACE :: pyq "'decision': 'Yes'"
     ++ RBRACE :: py " Hope this helps.")
  = GeneratorAgent._extract_json offline
      (LBRACE :: pyq "'decision': 'Yes'" ++ [RBRACE]).
Proof.
  apply (generator_extract_ignores_surroundings offline
           (py "Here is the answer: ") (pyq "'decision': 'Yes'")
           (py " Hope this helps."));
    apply (bool_decide_unpack _); vm_compute; exact I.
Defined.

(** X5. The JSON extractor of the enhancer reads the object only, too: the
    text before the first opening brace and after the last closing brace
    does not change what it returns or raises. *)
Theorem enhancer_extract_ignores_surroundings (env : Services)
  (pre mid post : str) :
  LBRACE ∉ pre -> RBRACE ∉ post ->
  QueryEnhancerAgent._extract_json env
    (pre ++ LBRACE :: mid ++ RBRACE :: post)
  = QueryEnhancerAgent._extract_json env (LBRACE :: mid ++ [RBRACE]).
Proof.
  intros Hpre Hpost. unfold QueryEnhancerAgent._extract_json.
  rewrite (search_braces_span pre mid post Hpre Hpost).
  pose proof (search_braces_span [] mid []) as E. simpl in E.
  by rewrite E by apply not_elem_of_nil.
Qed.

Lemma enhancer_extract_ignores_surroundings_witness :
  QueryEnhancerAgent._extract_json offline
    (py "JSON: " ++ LBRACE :: pyq "'intent': 'definition'"
     ++ RBRACE :: py " (end)")
  = QueryEnhancerAgent._extract_json offline
      (LBRACE :: pyq "'intent': 'definition'" ++ [RBRACE]).
Proof.
  apply (enhancer_extract_ignores_surroundings offline (py "JSON: ")
           (pyq "'intent': 'definition'") (py " (end)"));
    apply (bool_decide_unpack _); vm_compute; exact I.
Defined.

(** X6. A reply without an opening brace, or without a closing brace, makes
    the JSON extractor of the enhancer raise the [ValueError] with the
    message of its own. *)
Theorem enhancer_extract_no_braces (env : Services) (text : str) :
  LBRACE ∉ text \/ RBRACE ∉ text ->
  QueryEnhancerAgent._extract_json env text
  = Raise (Exn ValueError (py "No JSON object found in the response string.")).
Proof.
  intros H. unfold QueryEnhancerAgent._extract_json.
  assert (search_braces text = None) as ->; [|done].
  destruct H; [by apply search_braces_no_open|by apply search_braces_no_close].
Qed.

Lemma enhancer_extract_no_braces_witness :
  QueryEnhancerAgent._extract_json offline (py "no object { here")
  = Raise (Exn ValueError (py "No JSON object found in the response string.")).
Proof.
  apply (enhancer_extract_no_braces offline (py "no object { here")).
  right. apply (bool_decide_unpack _). vm_compute. exact I.
Defined.

(** ** The repairs *)

Lemma re_sub_elem (m : str -> option (nat * str)) :
  (forall t n r x, m t = Some (n, r) -> x ∈ r -> x ∈ t) ->
  forall s k x, x ∈ re_sub m k s -> x ∈ s.
Proof.
  intros Hm s. induction s as [|c s IH]; intros k x; simpl; [done|].
  destruct k as [|k]; [|intros H; right; eauto].
  destruct (m (c :: s)) as [[[|n] r]|] eqn:E.
  - rewrite elem_of_cons. intros [->|H]; [left|right; eauto].
  - rewrite elem_of_app. intros [H|H]; [by eapply Hm|right; eauto].
  - rewrite elem_of_cons. intros [->|H]; [left|right; eauto].
Qed.

Lemma re_sub_length (m : str -> option (nat * str)) :
  (forall t n r, m t = Some (n, r) -> length r <= 1) ->
  forall s k, length (re_sub m k s) <= length s - k.
Proof.
  intros Hm s. induction s as [|c s IH]; intros k; simpl; [lia|].
  destruct k as [|k]; [|apply IH].
  destruct (m (c :: s)) as [[[|n] r]|] eqn:E; simpl.
  - specialize (IH 0). lia.
  - rewrite length_app. apply Hm in E. specialize (IH n). lia.
  - specialize (IH 0). lia.
Qed.

Lemma trailing_comma_match_closer t n r :
  trailing_comma_match t = Some (n, r) ->
  exists d, r = [d] /\ d ∈ t.
Proof.
  destruct t as [|c rest]; simpl; [done|].
  destruct (c =? COMMA)%N; [|done].
  destruct (drop_while is_space rest) as [|d u] eqn:E; [done|].
  destruct (is_closer d); [|done]. intros [= <- <-].
  exists d. split; [done|]. right. eapply drop_while_elem. rewrite E. left.
Qed.

(** X7. Whatever span it is given, the text the recovery parser hands to
    the decoder holds no newline and is not longer than the span. *)
Theorem repaired_no_newline (span : str) :
  (LF ∉ repaired span) /\ length (repaired span) <= length span.
Proof.
  unfold repaired. split.
  - intros H. apply re_sub_elem in H.
    + unfold replace_char in H. apply list_elem_of_fmap in H as (c & Hc & _).
      destruct (N.eqb_spec c LF); [done|congruence].
    + intros t n r x (d & -> & Hd)%trailing_comma_match_closer.
      by intros ->%list_elem_of_singleton.
  - etrans; [apply re_sub_length|].
    { intros t n r (d & -> & _)%trailing_comma_match_closer. done. }
    unfold replace_char. rewrite length_map.
    etrans; [apply Nat.le_sub_l|]. etrans; [apply re_sub_length|lia].
    intros t n r ->%invalid_escape_match_deletes. simpl. lia.
Qed.

(** ** The generator *)

Lemma generator_extract_dict (env : Services) (text : str) (v : json) :
  GeneratorAgent._extract_json env text = Ok v -> is_dict v = true.
Proof.
  unfold GeneratorAgent._extract_json, json_loads.
  destruct (search_braces _) as [span|] eqn:Hspan; [|done].
  fold (repaired span).
  destruct (search_braces_head _ _ Hspan) as [rest ->].
  destruct (repaired_head rest) as [rest' ->].
  destruct (Json.decode _) as [w|] eqn:Hw; [|done]. intros [= <-].
  by eapply decode_brace_dict.
Qed.

(** X8. [generate_answer] never raises and always returns a dictionary.
    Without chunks it makes no call; with chunks it makes exactly one call
    of the model, with an output budget of 2048 tokens, and when that call
    or the recovery parser raises, the dictionary is the Error object whose
    justification ends with the message of the exception. *)
Theorem generate_answer_returns_dict (env : Services) (raw_query : str)
  (chunks : list Chunk) (tr : trace) :
  exists answer,
    fst (GeneratorAgent.generate_answer env raw_query chunks tr) = Ok answer
    /\ is_dict answer = true
    /\ (chunks = [] ->
        snd (GeneratorAgent.generate_answer env raw_query chunks tr) = tr)
    /\ (chunks <> [] ->
        (exists prompt,
           snd (GeneratorAgent.generate_answer env raw_query chunks tr)
           = tr ++ [LlmCall prompt 2048])
        /\ forall e,
             fst (generation_attempt env raw_query chunks tr) = Raise e ->
             answer
             = JObject
                 [(py "decision", JString (py "Error"));
                  (py "amount", JNull);
                  (py "justification",
                    JString (py "Failed to generate a valid response: "
                             ++ exn_str e));
                  (py "clauses", JArray [])]).
Proof.
  destruct chunks as [|c chunks].
  - exists GeneratorAgent.not_found. repeat split; done.
  - rewrite generate_answer_absorbs.
    unfold generation_attempt, bind, generate_content, call, lift.
    destruct (llm_generate _ _ _ _) as [text|e0].
    + destruct (GeneratorAgent._extract_json env text) as [v|e1] eqn:Hv.
      * exists v. simpl. split; [done|].
        split; [by eapply generator_extract_dict|].
        split; [done|]. intros _. split; [eauto|done].
      * eexists. simpl. split; [done|]. split; [done|]. split; [done|].
        intros _. split; [eauto|]. by intros e [= <-].
    + eexists. simpl. split; [done|]. split; [done|]. split; [done|].
      intros _. split; [eauto|]. by intros e [= <-].
Qed.

(** ** The enhancer *)

(** X9. [enhance_query] never raises and makes exactly one call of the
    model, with an output budget of 512 tokens.  What it returns is the
    record validated from the reply, or the fallback with the intent
    general_query, the question as the only entity and as the raw query, and
    no keywords or conditions; it is the fallback whenever the model raises
    or its reply has no opening brace or no closing brace. *)
Theorem enhance_query_falls_back (env : Services) (q : str) (tr : trace) :
  let prompt := enhancer_prompt env q in
  let fallback :=
    {| intent := py "general_query"; entities := [q]; keywords := None;
       conditions := None; raw_query := q |} in
  exists enhanced,
    QueryEnhancerAgent.enhance_query env q tr
    = (Ok enhanced, tr ++ [LlmCall prompt 512])
    /\ (enhanced = fallback
        \/ exists text data,
             llm_generate env tr prompt 512 = Ok text
             /\ QueryEnhancerAgent._extract_json env text = Ok data
             /\ QueryEnhancerAgent.validate env data = Ok enhanced)
    /\ (is_ok (llm_generate env tr prompt 512) = false -> enhanced = fallback)
    /\ (forall text, llm_generate env tr prompt 512 = Ok text ->
                     LBRACE ∉ text \/ RBRACE ∉ text -> enhanced = fallback).
Proof.
  intros prompt fallback.
  unfold QueryEnhancerAgent.enhance_query, try_except, bind, generate_content,
    call, lift, ret. fold prompt.
  destruct (llm_generate env tr prompt 512) as [text|e] eqn:Hllm.
  - destruct (QueryEnhancerAgent._extract_json env text) as [data|e] eqn:Hx.
    + destruct (QueryEnhancerAgent.validate env data) as [r|e] eqn:Hv.
      * exists r. split; [done|]. split; [right; eauto|]. split; [done|].
        intros t [= <-] Hb.
        assert (search_braces text = None) as Hs
          by (destruct Hb;
              [by apply search_braces_no_open|by apply search_braces_no_close]).
        unfold QueryEnhancerAgent._extract_json in Hx. by rewrite Hs in Hx.
      * exists fallback. repeat split; auto.
    + exists fallback. repeat split; auto.
  - exists fallback. repeat split; auto.
Qed.

Lemma as_str_items_map (l : list str) :
  QueryEnhancerAgent.as_str_items (map JString l) = Some l.
Proof. induction l as [|x l IH]; simpl; [done|]. by rewrite IH. Qed.

Lemma as_str_items_inv (l : list json) (r : list str) :
  QueryEnhancerAgent.as_str_items l = Some r -> l = map JString r.
Proof.
  revert r. induction l as [|v l IH]; intros r; simpl; [by intros [= <-]|].
  destruct v; simpl; try done.
  destruct (QueryEnhancerAgent.as_str_items l) as [r'|]; [|done].
  intros [= <-]. simpl. by rewrite (IH r').
Qed.

(** X10. Validation undoes the dump of the model: the dictionary that
    [model_dump] gives for a record validates to that record. *)
Theorem validate_model_dump (env : Services) (e : EnhancedQuery) :
  QueryEnhancerAgent.validate env (model_dump e) = Ok e.
Proof.
  destruct e as [i en k c r]. unfold QueryEnhancerAgent.validate, model_dump.
  cbn [intent entities keywords conditions raw_query].
  match goal with
  | |- context [dict_get (py "intent") ?d] =>
      change (dict_get (py "intent") d) with (Some (JString i));
      change (dict_get (py "entities") d) with (Some (JArray (map JString en)));
      change (dict_get (py "keywords") d) with (Some (dump_optional k));
      change (dict_get (py "conditions") d) with (Some (dump_optional c));
      change (dict_get (py "raw_query") d) with (Some (JString r))
  end.
  assert (forall o, QueryEnhancerAgent.as_optional_str_list
                      (Some (dump_optional o)) = Some o) as Hopt.
  { intros [l|]; simpl; [|done].
    destruct l as [|x l]; simpl; [done|]. by rewrite as_str_items_map. }
  rewrite !Hopt. simpl. by rewrite as_str_items_map.
Qed.

(** X11. A reply validates only if it is a dictionary in which intent is a
    string, entities a list of strings and raw_query a string, and the
    record then holds exactly these values: the raw query of the record is
    the raw_query of the reply. *)
Theorem validate_reads_reply (env : Services) (data : json) (e : EnhancedQuery) :
  QueryEnhancerAgent.validate env data = Ok e ->
  exists fields,
    data = JObject fields
    /\ dict_get (py "intent") fields = Some (JString (intent e))
    /\ dict_get (py "entities") fields
       = Some (JArray (map JString (entities e)))
    /\ dict_get (py "raw_query") fields = Some (JString (raw_query e)).
Proof.
  unfold QueryEnhancerAgent.validate.
  destruct data as [| | | | |?|fields]; try done.
  destruct (dict_get (py "intent") fields) as [[| | | |i| |]|] eqn:Hi;
    try done.
  destruct (dict_get (py "entities") fields) as [[| | | | |items|]|] eqn:He;
    simpl; try done.
  destruct (QueryEnhancerAgent.as_str_items items) as [en|] eqn:Hen; [|done].
  destruct (QueryEnhancerAgent.as_optional_str_list _) as [k|]; [|done].
  destruct (QueryEnhancerAgent.as_optional_str_list _) as [c|]; [|done].
  destruct (dict_get (py "raw_query") fields) as [[| | | |r| |]|] eqn:Hr;
    simpl; try done.
  intros [= <-]. simpl. exists fields.
  by rewrite Hi, He, Hr, (as_str_items_inv _ _ Hen).
Qed.

Lemma validate_reads_reply_witness :
  exists fields,
    JObject [(py "raw_query", JString (py "q")); (py "entities", JArray []);
             (py "intent", JString (py "i")); (py "other", JNull)]
    = JObject fields
    /\ dict_get (py "intent") fields = Some (JString (py "i"))
    /\ dict_get (py "entities") fields = Some (JArray (map JString []))
    /\ dict_get (py "raw_query") fields = Some (JString (py "q")).
Proof.
  apply (validate_reads_reply offline
           (JObject [(py "raw_query", JString (py "q"));
                     (py "entities", JArray []);
                     (py "intent", JString (py "i")); (py "other", JNull)])
           {| intent := py "i"; entities := []; keywords := None;
              conditions := None; raw_query := py "q" |}).
  reflexivity.
Defined.

(** ** One unit: the answer shown and the calls made *)

Lemma first_truthy_at (env : Services) (fields : list (str * json))
  (keys : list str) : forall i key v,
  keys !! i = Some key ->
  dict_get key fields = Some v ->
  truthy env v = true ->
  (forall j key' w, j < i -> keys !! j = Some key' ->
                    dict_get key' fields = Some w -> truthy env w = false) ->
  first_truthy env keys fields = Some v.
Proof.
  induction keys as [|k keys IH]; intros i key v Hi Hv Ht Hbefore; [done|].
  destruct i as [|i]; simpl in Hi |- *.
  - injection Hi as ->. by rewrite Hv, Ht.
  - assert (first_truthy env keys fields = Some v) as Hrec.
    { apply (IH i key v Hi Hv Ht). intros j key' w Hj Hk.
      apply (Hbefore (S j) key' w); [lia|done]. }
    destruct (dict_get k fields) as [w|] eqn:Hw; [|done].
    by rewrite (Hbefore 0 k w) by (done || lia).
Qed.

(** X12. For an answer that is a dictionary, the answer string is read from
    the first of the keys decision, answer, response, content, text that is
    present with a true value, keys that are absent or hold an empty or null
    value being passed over; a string value is returned as it is. *)
Theorem extract_decision_first_true_key (env : Services)
  (fields : list (str * json)) (i : nat) (key : str) (v : json) :
  [py "decision"; py "answer"; py "response"; py "content"; py "text"] !! i
  = Some key ->
  dict_get key fields = Some v ->
  truthy env v = true ->
  (forall j key' w, j < i -> decision_keys !! j = Some key' ->
                    dict_get key' fields = Some w -> truthy env w = false) ->
  extract_decision_from_answer env (JObject fields) = py_str env v
  /\ (forall s, v = JString s ->
                extract_decision_from_answer env (JObject fields) = s).
Proof.
  intros Hi Hv Ht Hbefore. unfold extract_decision_from_answer.
  rewrite (first_truthy_at env fields decision_keys i key v Hi Hv Ht Hbefore).
  split; [done|]. by intros s ->.
Qed.

Lemma extract_decision_first_true_key_witness :
  extract_decision_from_answer offline
    (JObject [(py "answer", JString (py "42")); (py "decision", JString [])])
  = py_str offline (JString (py "42"))
  /\ (forall s, JString (py "42") = JString s ->
                extract_decision_from_answer offline
                  (JObject [(py "answer", JString (py "42"));
                            (py "decision", JString [])]) = s).
Proof.
  apply (extract_decision_first_true_key offline
           [(py "answer", JString (py "42")); (py "decision", JString [])]
           1 (py "answer") (JString (py "42"))); try reflexivity.
  intros [|j] key' w Hj; [|lia]. intros [= <-] [= <-]. reflexivity.
Defined.

(** With chunks the generator makes one call of the model. *)
Lemma generate_answer_trace (env : Services) (q : str) (c : Chunk)
  (chunks : list Chunk) (tr : trace) :
  exists prompt,
    snd (GeneratorAgent.generate_answer env q (c :: chunks) tr)
    = tr ++ [LlmCall prompt 2048].
Proof.
  rewrite generate_answer_absorbs.
  unfold generation_attempt, bind, generate_content, call, lift.
  destruct (llm_generate _ _ _ _) as [text|e0]; [|eauto].
  destruct (GeneratorAgent._extract_json env text); eauto.
Qed.

(** A unit, step by step. *)
Lemma unit_unfold (env : Services) (q : str) (tr : trace) :
  let tr1 := tr ++ [LlmCall (enhancer_prompt env q) 512] in
  let enhanced := enhanced_by env q tr in
  let text := RetrieverAgent._compose_search_query enhanced in
  let tr2 := tr1 ++ [EmbedCall text] in
  match embedder_encode env tr1 text with
  | Raise e =>
      process_single_question env q tr = (Ok (Failure q (exn_str e)), tr2)
  | Ok emb =>
      exists req,
        request_of env emb 5 (Finite 0.5) = Ok req
        /\ exists chunks,
             (match index_query env tr2 req with
              | Ok (m :: ms) =>
                  chunks = map RetrieverAgent.final_result
                             (RetrieverAgent.unique_loop (m :: ms) ∅ [])
              | _ => chunks = []
              end)
             /\ exists answer tr4,
                  GeneratorAgent.generate_answer env q chunks
                    (tr2 ++ [IndexCall req]) = (Ok answer, tr4)
                  /\ process_single_question env q tr
                     = (Ok (Success q enhanced chunks answer
                              (extract_decision_from_answer env answer)), tr4)
  end.
Proof.
  intros tr1 enhanced text tr2.
  rewrite process_single_question_cases. fold tr1 enhanced.
  rewrite retrieve_unfold. fold text tr2.
  destruct (embedder_encode env tr1 text) as [emb|e]; [|done].
  destruct (hybrid_ok_inside env (dense_vecs emb) (sparse_of emb) (Finite 0.5))
    as [[hd hs] Hh]; [split; apply Qle_bool_iff; reflexivity|].
  unfold request_of. rewrite Hh. eexists. split; [reflexivity|].
  match goal with
  | |- context [IndexCall ?r] => set (req := r)
  end.
  set (tr3 := tr2 ++ [IndexCall req]).
  assert (forall chunks, exists answer tr4,
            GeneratorAgent.generate_answer env q chunks tr3 = (Ok answer, tr4))
    as Hgen.
  { intros chunks.
    destruct (generate_answer_total env q chunks tr3) as [answer Ha].
    destruct (GeneratorAgent.generate_answer env q chunks tr3) as [r tr4].
    simpl in Ha. subst r. eauto. }
  destruct (index_query env tr2 req) as [[|m ms]|e0].
  - exists []. split; [done|].
    destruct (Hgen []) as (answer & tr4 & Ha). exists answer, tr4.
    by rewrite Ha.
  - eexists. split; [reflexivity|].
    destruct (Hgen (map RetrieverAgent.final_result
                      (RetrieverAgent.unique_loop (m :: ms) ∅ [])))
      as (answer & tr4 & Ha).
    exists answer, tr4. by rewrite Ha.
  - exists []. split; [done|].
    destruct (Hgen []) as (answer & tr4 & Ha). exists answer, tr4.
    by rewrite Ha.
Qed.

(** X13. A unit never raises and returns a result for the question it was
    given.  Its calls are, in this order: one call of the model for the
    enhancement, one call of the embedder, then at most one query of the
    index, then at most one call of the model for the generation; the second
    call of the model is made only after the query of the index. *)
Theorem unit_calls (env : Services) (q : str) (tr : trace) :
  exists r rest,
    process_single_question env q tr
    = (Ok r,
       tr ++ LlmCall (enhancer_prompt env q) 512
             :: EmbedCall (RetrieverAgent._compose_search_query
                             (enhanced_by env q tr))
             :: rest)
    /\ question r = q
    /\ (rest = []
        \/ (exists req, rest = [IndexCall req])
        \/ (exists req prompt, rest = [IndexCall req; LlmCall prompt 2048])).
Proof.
  pose proof (unit_unfold env q tr) as H. simpl in H.
  destruct (embedder_encode _ _ _) as [emb|e].
  - destruct H as (req & _ & chunks & _ & answer & tr4 & Ha & ->).
    destruct chunks as [|c chunks].
    + injection Ha as <- <-.
      eexists _, [IndexCall req]. rewrite <- !app_assoc. simpl.
      split; [done|]. split; [done|]. right. left. eauto.
    + destruct (generate_answer_trace env q c chunks
                  ((tr ++ [LlmCall (enhancer_prompt env q) 512])
                   ++ [EmbedCall (RetrieverAgent._compose_search_query
                                    (enhanced_by env q tr))]
                   ++ [IndexCall req])) as [prompt Hp].
      rewrite <- app_assoc in Ha. rewrite Ha in Hp. simpl in Hp. subst tr4.
      eexists _, [IndexCall req; LlmCall prompt 2048].
      rewrite <- !app_assoc. simpl.
      split; [done|]. split; [done|]. right. right. eauto.
  - rewrite H. eexists _, []. rewrite <- !app_assoc. simpl.
    split; [done|]. split; [done|]. by left.
Qed.

(** X14. When the embedder answers and the index raises or returns no
    match, the unit reports success with the Not Found object as answer and
    the string Not Found as generated answer, and the model is called once
    only, for the enhancement: an outage of the index reads like a question
    without matching passage. *)
Theorem index_outage_reads_not_found (env : Services) (q : str) (tr : trace)
  (emb : Embedding) :
  let tr2 :=
    tr ++ [LlmCall (enhancer_prompt env q) 512;
           EmbedCall (RetrieverAgent._compose_search_query
                        (enhanced_by env q tr))] in
  embedding_answer env q tr = Ok emb ->
  (forall req, match index_query env tr2 req with
               | Ok (_ :: _) => False
               | _ => True
               end) ->
  fst (process_single_question env q tr)
  = Ok (Success q (enhanced_by env q tr) []
          (JObject
             [(py "decision", JString (py "Not Found"));
              (py "amount", JNull);
              (py "justification",
                JString
                  (py "Could not find relevant information in the provided documents."));
              (py "clauses", JArray [])])
          (py "Not Found"))
  /\ llm_calls (snd (process_single_question env q tr))
     = llm_calls tr ++ [enhancer_prompt env q].
Proof.
  intros tr2 Hemb Hidx.
  pose proof (unit_unfold env q tr) as H. simpl in H.
  unfold embedding_answer in Hemb. rewrite enhance_query_cases in Hemb.
  simpl in Hemb. rewrite Hemb in H.
  destruct H as (req & _ & chunks & Hc & answer & tr4 & Ha & ->).
  specialize (Hidx req). subst tr2.
  replace (tr ++ [LlmCall (enhancer_prompt env q) 512;
                  EmbedCall (RetrieverAgent._compose_search_query
                               (enhanced_by env q tr))])
    with ((tr ++ [LlmCall (enhancer_prompt env q) 512])
          ++ [EmbedCall (RetrieverAgent._compose_search_query
                           (enhanced_by env q tr))]) in Hidx
    by (by rewrite <- app_assoc).
  assert (chunks = []) as ->.
  { destruct (index_query _ _ _) as [[|m ms]|e0]; done. }
  injection Ha as <- <-. simpl. split; [done|].
  unfold llm_calls. rewrite !omap_app. simpl. by rewrite !app_nil_r.
Qed.

Lemma index_outage_reads_not_found_witness :
  fst (process_single_question
         (services (fun _ _ _ => Raise service_error)
            (fun _ _ => Ok sample_embedding)
            (fun _ _ => Raise service_error)) (py "q") [])
  = Ok (Success (py "q")
          (enhanced_by (services (fun _ _ _ => Raise service_error)
                          (fun _ _ => Ok sample_embedding)
                          (fun _ _ => Raise service_error)) (py "q") [])
          []
          (JObject
             [(py "decision", JString (py "Not Found"));
              (py "amount", JNull);
              (py "justification",
                JString
                  (py "Could not find relevant information in the provided documents."));
              (py "clauses", JArray [])])
          (py "Not Found"))
  /\ llm_calls (snd (process_single_question
                       (services (fun _ _ _ => Raise service_error)
                          (fun _ _ => Ok sample_embedding)
                          (fun _ _ => Raise service_error)) (py "q") []))
     = llm_calls [] ++ [enhancer_prompt
                          (services (fun _ _ _ => Raise service_error)
                             (fun _ _ => Ok sample_embedding)
                             (fun _ _ => Raise service_error)) (py "q")].
Proof.
  apply (index_outage_reads_not_found
           (services (fun _ _ _ => Raise service_error)
              (fun _ _ => Ok sample_embedding)
              (fun _ _ => Raise service_error)) (py "q") [] sample_embedding).
  - reflexivity.
  - intros req. exact I.
Defined.

(** ** The batch: what is at each position *)

Lemma sort_by_perm_keys {A} (key : A -> nat) (l1 l2 : list A) :
  l1 ≡ₚ l2 -> NoDup (map key l1) -> sort_by key l1 = sort_by key l2.
Proof.
  induction 1 as [|x l1 l2 Hp IH|x y l|l1 l2 l3 Hp1 IH1 Hp2 IH2];
    intros Hnd; simpl.
  - done.
  - simpl in Hnd. apply NoDup_cons in Hnd as [_ Hnd]. by rewrite IH.
  - simpl in Hnd. apply NoDup_cons in Hnd as [Hy _].
    apply insert_by_comm. intros E. apply Hy. rewrite E. left.
  - rewrite IH1 by done. apply IH2.
    assert (map key l1 ≡ₚ map key l2) as E by (by apply Permutation_map).
    by rewrite <- E.
Qed.

Lemma keys_ascending {A} (key : A -> nat) (l : list A) : forall k0,
  (forall i x, l !! i = Some x -> key x = k0 + i) ->
  Sorted (fun x y => key x <= key y) l.
Proof.
  induction l as [|x l IH]; intros k0 H; [constructor|].
  constructor.
  - apply (IH (S k0)). intros i y Hy. rewrite (H (S i) y Hy). lia.
  - destruct l as [|y l]; constructor.
    rewrite (H 0 x eq_refl), (H 1 y eq_refl). lia.
Qed.

Section BatchResults.
Context (env : Services).
Implicit Types (questions : list str) (runs : nat -> UnitRun).

Lemma order_key_position questions i q :
  NoDup questions -> questions !! i = Some q -> order_key questions q = i.
Proof.
  intros Hnd Hi. unfold order_key.
  destruct (question_to_index_is_Some questions q) as [j Hj];
    [by eapply list_elem_of_lookup_2|].
  rewrite Hj. simpl. apply question_to_index_last in Hj as [Hj _].
  by eapply NoDup_lookup.
Qed.

(** What a completed unit contributes is what it returned. *)
Lemma collect_submit_result q run t :
  run_done_at run = Some t ->
  exists r, fst (process_single_question env q (run_trace run)) = Ok r
            /\ collect (submit env q run) = r.
Proof.
  intros Ht.
  destruct (process_single_question_question env q (run_trace run))
    as (r & Hr & _).
  exists r. split; [done|]. by apply (collect_completed _ t).
Qed.

(** The value of the call once every unit has completed. *)
Lemma batch_value T questions max_workers runs :
  questions <> [] ->
  (0 < max_workers)%Z ->
  (forall i, i < length questions ->
     exists t, run_done_at (runs i) = Some t /\ t <= T) ->
  process_questions_parallel env T questions max_workers runs
  = Some (Ok (sort_by (fun x => order_key questions (question x))
                (map collect
                   (sort_by done_time
                      (imap (fun i q => submit env q (runs i)) questions))))).
Proof.
  intros Hne Hw Hdone. unfold process_questions_parallel.
  destruct questions as [|q0 qs] eqn:Eq; [done|]. rewrite <- Eq in *. clear Hne.
  destruct (Z.leb_spec max_workers 0); [lia|].
  set (futures := imap (fun i q => submit env q (runs i)) questions).
  assert (forallb (done_by T) futures = true) as Hall.
  { apply forallb_imap. intros i q Hi. unfold done_by. simpl.
    destruct (Hdone i) as (t & -> & Ht); [by eapply lookup_lt_Some|].
    by apply Nat.leb_le. }
  rewrite Hall. unfold as_completed. by rewrite (filter_all _ _ Hall).
Qed.

Lemma batch_results_perm questions runs :
  sort_by (fun x => order_key questions (question x))
    (map collect
       (sort_by done_time (imap (fun i q => submit env q (runs i)) questions)))
  ≡ₚ map collect (imap (fun i q => submit env q (runs i)) questions).
Proof. rewrite sort_by_perm. apply Permutation_map, sort_by_perm. Qed.

(** For questions that are all different the results are those of the
    units, in the order of the questions. *)
Lemma batch_distinct_value T questions max_workers runs :
  questions <> [] ->
  NoDup questions ->
  (0 < max_workers)%Z ->
  (forall i, i < length questions ->
     exists t, run_done_at (runs i) = Some t /\ t <= T) ->
  process_questions_parallel env T questions max_workers runs
  = Some (Ok (map collect (imap (fun i q => submit env q (runs i)) questions))).
Proof.
  intros Hne Hnd Hw Hdone. rewrite batch_value by done. do 2 f_equal.
  set (futures := imap (fun i q => submit env q (runs i)) questions).
  set (key := fun x => order_key questions (question x)).
  assert (forall i x, map collect futures !! i = Some x -> key x = i) as Hkey.
  { intros i x Hx. change (map collect futures) with (collect <$> futures) in Hx.
    rewrite list_lookup_fmap in Hx. unfold futures in Hx.
    rewrite list_lookup_imap in Hx.
    destruct (questions !! i) as [q|] eqn:Hq; [|done].
    injection Hx as <-. unfold key. rewrite collect_submit_question.
    by apply order_key_position. }
  assert (NoDup (map key (map collect futures))) as Hkeys.
  { change (NoDup (key <$> (collect <$> futures))).
    apply NoDup_fmap_2_strong.
    - intros x y [i Hx]%list_elem_of_lookup_1 [j Hy]%list_elem_of_lookup_1 E.
      rewrite (Hkey i x Hx), (Hkey j y Hy) in E. subst j. congruence.
    - apply NoDup_alt. intros i j x Hx Hy.
      by rewrite <- (Hkey i x Hx), <- (Hkey j x Hy). }
  rewrite (sort_by_perm_keys key _ (map collect futures)).
  - apply sort_by_sorted, (keys_ascending key _ 0). intros i x Hx.
    by rewrite (Hkey i x Hx).
  - apply Permutation_map, sort_by_perm.
  - assert (map key (map collect (sort_by done_time futures))
            ≡ₚ map key (map collect futures)) as E
      by apply Permutation_map, Permutation_map, sort_by_perm.
    by rewrite E.
Qed.

End BatchResults.

(** X15. For a batch of questions that are all different, once every unit
    has completed, the result at each position is what the unit of the
    question at that position returned, whatever the order in which the
    units completed. *)
Theorem batch_position_holds_own_result (env : Services) (T : nat)
  (questions : list str) (max_workers : Z) (runs : nat -> UnitRun) :
  questions <> [] ->
  NoDup questions ->
  (0 < max_workers)%Z ->
  (forall i, i < length questions ->
     exists t, run_done_at (runs i) = Some t /\ t <= T) ->
  exists out,
    process_questions_parallel env T questions max_workers runs = Some (Ok out)
    /\ length out = length questions
    /\ forall i q, questions !! i = Some q ->
         exists r, out !! i = Some r
                   /\ fst (process_single_question env q (run_trace (runs i)))
                      = Ok r.
Proof.
  intros Hne Hnd Hw Hdone. eexists.
  split; [by apply batch_distinct_value|].
  split; [by rewrite length_map, length_imap|].
  intros i q Hq.
  destruct (Hdone i) as (t & Ht & _); [by eapply lookup_lt_Some|].
  destruct (collect_submit_result env q (runs i) t Ht) as (r & Hr & Hc).
  exists r. split; [|done].
  change (map collect ?l) with (collect <$> l).
  by rewrite list_lookup_fmap, list_lookup_imap, Hq; simpl; rewrite Hc.
Qed.

Lemma batch_position_holds_own_result_witness :
  exists out,
    process_questions_parallel offline 10 [py "a"; py "b"; py "c"] 2
      (sample_runs [Some 3; Some 1; Some 2]) = Some (Ok out)
    /\ length out = length [py "a"; py "b"; py "c"]
    /\ forall i q, [py "a"; py "b"; py "c"] !! i = Some q ->
         exists r, out !! i = Some r
                   /\ fst (process_single_question offline q
                             (run_trace (sample_runs [Some 3; Some 1; Some 2] i)))
                      = Ok r.
Proof.
  apply (batch_position_holds_own_result offline 10 [py "a"; py "b"; py "c"] 2
           (sample_runs [Some 3; Some 1; Some 2])); [done| |lia|].
  - apply (bool_decide_unpack _). vm_compute. exact I.
  - intros [|[|[|i]]] Hi; [exists 3|exists 1|exists 2|simpl in Hi; lia];
      (split; [reflexivity|lia]).
Defined.

(** X16. For every batch, with repeated questions or not, once every unit
    has completed the call returns one result per question: as many results
    as questions, their questions a rearrangement of the questions of the
    input, and each result what one of the units returned for its
    question. *)
Theorem batch_one_result_per_question (env : Services) (T : nat)
  (questions : list str) (max_workers : Z) (runs : nat -> UnitRun) :
  questions <> [] ->
  (0 < max_workers)%Z ->
  (forall i, i < length questions ->
     exists t, run_done_at (runs i) = Some t /\ t <= T) ->
  exists out,
    process_questions_parallel env T questions max_workers runs = Some (Ok out)
    /\ length out = length questions
    /\ map question out ≡ₚ questions
    /\ forall r, r ∈ out ->
         exists i q, questions !! i = Some q
                     /\ fst (process_single_question env q (run_trace (runs i)))
                        = Ok r.
Proof.
  intros Hne Hw Hdone. eexists. split; [by apply batch_value|].
  pose proof (batch_results_perm env questions runs) as Hp.
  split; [by rewrite Hp, length_map, length_imap|]. split.
  - etrans; [apply Permutation_map, Hp|].
    rewrite (map_question_collect env questions runs) by done.
    by rewrite map_fut_question_imap.
  - intros r Hr. rewrite Hp in Hr.
    apply list_elem_of_fmap in Hr as (f & -> & Hf).
    apply list_elem_of_lookup_1 in Hf as [i Hi].
    rewrite list_lookup_imap in Hi.
    destruct (questions !! i) as [q|] eqn:Hq; [|done]. injection Hi as <-.
    destruct (Hdone i) as (t & Ht & _); [by eapply lookup_lt_Some|].
    destruct (collect_submit_result env q (runs i) t Ht) as (r & Hr & ->).
    eauto.
Qed.

Lemma batch_one_result_per_question_witness :
  exists out,
    process_questions_parallel offline 10 [py "a"; py "b"; py "a"] 2
      (sample_runs [Some 3; Some 1; Some 2]) = Some (Ok out)
    /\ length out = length [py "a"; py "b"; py "a"]
    /\ map question out ≡ₚ [py "a"; py "b"; py "a"]
    /\ forall r, r ∈ out ->
         exists i q, [py "a"; py "b"; py "a"] !! i = Some q
                     /\ fst (process_single_question offline q
                               (run_trace (sample_runs [Some 3; Some 1; Some 2] i)))
                        = Ok r.
Proof.
  apply (batch_one_result_per_question offline 10 [py "a"; py "b"; py "a"] 2
           (sample_runs [Some 3; Some 1; Some 2])); [done|lia|].
  intros [|[|[|i]]] Hi; [exists 3|exists 1|exists 2|simpl in Hi; lia];
    (split; [reflexivity|lia]).
Defined.

(** ** [get_answers_from_file]: the answers the caller receives *)

(** X17. [get_answers_from_file] gives one answer string per question once
    every unit has completed, for an empty list too, and for questions that
    are all different the answer at each position is the one of the result
    that the unit of that question returned: its generated answer, or its
    error message after the prefix of an error. *)
Theorem answers_one_per_question (env : Services) (T : nat) (file_path : str)
  (questions : list str) (runs : nat -> UnitRun) :
  (forall i, i < length questions ->
     exists t, run_done_at (runs i) = Some t /\ t <= T) ->
  exists answers,
    get_answers_from_file env T file_path questions runs = Some (Ok answers)
    /\ length answers = length questions
    /\ (NoDup questions ->
        forall i q, questions !! i = Some q ->
          exists r,
            fst (process_single_question env q (run_trace (runs i))) = Ok r
            /\ answers !! i
               = Some (match r with
                       | Success _ _ _ _ generated_answer => generated_answer
                       | Failure _ error => py "Error: " ++ error
                       end)).
Proof.
  intros Hdone. unfold get_answers_from_file.
  destruct (decide (questions = [])) as [->|Hne].
  { exists []. split; [done|]. split; [done|]. by intros _ i q. }
  destruct (decide (NoDup questions)) as [Hnd|Hnd].
  - rewrite (batch_distinct_value env T questions 2 runs) by (done || lia).
    eexists. split; [reflexivity|].
    split; [by rewrite !length_map, length_imap|].
    intros _ i q Hq.
    destruct (Hdone i) as (t & Ht & _); [by eapply lookup_lt_Some|].
    destruct (collect_submit_result env q (runs i) t Ht) as (r & Hr & Hc).
    exists r. split; [done|].
    change (map answer_of (map collect ?l))
      with (answer_of <$> (collect <$> l)).
    by rewrite !list_lookup_fmap, list_lookup_imap, Hq; simpl; rewrite Hc.
  - rewrite (batch_value env T questions 2 runs) by (done || lia).
    eexists. split; [reflexivity|]. split; [|done].
    by rewrite length_map, (batch_results_perm env questions runs),
      length_map, length_imap.
Qed.

Lemma answers_one_per_question_witness :
  exists answers,
    get_answers_from_file offline 10 (py "/tmp/policy.pdf")
      [py "a"; py "b"] (sample_runs [Some 3; Some 1]) = Some (Ok answers)
    /\ length answers = length [py "a"; py "b"]
    /\ (NoDup [py "a"; py "b"] ->
        forall i q, [py "a"; py "b"] !! i = Some q ->
          exists r,
            fst (process_single_question offline q
                   (run_trace (sample_runs [Some 3; Some 1] i))) = Ok r
            /\ answers !! i
               = Some (match r with
                       | Success _ _ _ _ generated_answer => generated_answer
                       | Failure _ error => py "Error: " ++ error
                       end)).
Proof.
  apply (answers_one_per_question offline 10 (py "/tmp/policy.pdf")
           [py "a"; py "b"] (sample_runs [Some 3; Some 1])).
  intros [|[|i]] Hi; [exists 3|exists 1|simpl in Hi; lia];
    (split; [reflexivity|lia]).
Defined.

(** X18. The answer string of a unit, by what happened in it.  When the
    embedder raises, it is the message of the exception after the prefix of
    an error.  When the retriever returns no chunk, it is Not Found.  When
    the retriever returns chunks and the attempt of the generator raises, it
    is the bare word Error, without the cause; when the attempt returns an
    answer, it is the string extracted from that answer. *)
Theorem answer_of_unit (env : Services) (q : str) (tr : trace) :
  exists r,
    fst (process_single_question env q tr) = Ok r
    /\ match retrieval env q tr with
       | (Raise e, _) => answer_of r = py "Error: " ++ exn_str e
       | (Ok [], _) => answer_of r = py "Not Found"
       | (Ok (c :: chunks), tr2) =>
           (forall e,
              fst (generation_attempt env q (c :: chunks) tr2) = Raise e ->
              answer_of r = py "Error")
           /\ (forall answer,
                 fst (generation_attempt env q (c :: chunks) tr2) = Ok answer ->
                 answer_of r = extract_decision_from_answer env answer)
       end.
Proof.
  rewrite process_single_question_cases. unfold retrieval.
  rewrite enhance_query_cases. simpl snd.
  destruct (RetrieverAgent.retrieve_and_rerank _ _ _ _ _ _)
    as [[[|c chunks]|e] tr2].
  - by eexists.
  - rewrite generate_answer_absorbs.
    destruct (generation_attempt env q (c :: chunks) tr2) as [[answer|e1] tr3].
    + eexists. split; [reflexivity|]. simpl. split; [done|].
      by intros a [= <-].
    + eexists. split; [reflexivity|]. simpl. split; [done|]. done.
  - by eexists.
Qed.

(** ** [get_file_extension] *)

(** X19. Whatever the content type of the response, and for a response
    without one, the extension is one of the six extensions of the table. *)
Theorem get_file_extension_range (lower : str -> str)
  (content_type_header : option str) :
  get_file_extension lower content_type_header
  ∈ [py ".pdf"; py ".doc"; py ".docx"; py ".eml"; py ".msg"; py ".txt"].
Proof.
  unfold get_file_extension.
  destruct (extension_map !! _) as [ext|] eqn:E; simpl; [|left].
  apply elem_of_list_to_map_2 in E.
  repeat (apply elem_of_cons in E as [[= _ <-]|E];
          [by repeat first [left | right]|]).
  by apply elem_of_nil in E.
Qed.

Lemma ascii_lower_app (a b : str) :
  ascii_lower (a ++ b) = ascii_lower a ++ ascii_lower b.
Proof. apply map_app. Qed.

Lemma ascii_lower_no_semicolon (a : str) : 59%N ∉ a -> 59%N ∉ ascii_lower a.
Proof.
  intros Ha H. unfold ascii_lower in H.
  apply list_elem_of_fmap in H as (c & Hc & Hin).
  destruct ((65 <=? c) && (c <=? 90))%N eqn:E.
  - apply andb_true_iff in E as [E1 E2].
    apply N.leb_le in E1, E2. lia.
  - by subst c.
Qed.

Lemma split_char_from_head (sep : N) (a b cur : str) :
  sep ∉ a -> head (split_char_from sep cur (a ++ sep :: b)) = Some (cur ++ a).
Proof.
  revert cur. induction a as [|c a IH]; intros cur Ha; simpl.
  - by rewrite N.eqb_refl, app_nil_r.
  - apply not_elem_of_cons in Ha as [Hc Ha].
    destruct (N.eqb_spec c sep); [congruence|].
    rewrite IH by done. by rewrite <- app_assoc.
Qed.

Lemma split_char_from_whole (sep : N) (a cur : str) :
  sep ∉ a -> split_char_from sep cur a = [cur ++ a].
Proof.
  revert cur. induction a as [|c a IH]; intros cur Ha; simpl.
  - by rewrite app_nil_r.
  - apply not_elem_of_cons in Ha as [Hc Ha].
    destruct (N.eqb_spec c sep); [congruence|].
    rewrite IH by done. by rewrite <- app_assoc.
Qed.

(** X20. For a content type of ASCII characters the extension depends on
    the text before the first semicolon only, and not on its case: the
    parameters after the semicolon are dropped and the type is looked up in
    lower case, with .pdf for a type that is not in the table. *)
Theorem get_file_extension_type_only (lower : str -> str)
  (content_type params : str) :
  (forall s, is_ascii s -> lower s = ascii_lower s) ->
  is_ascii content_type -> is_ascii params ->
  59%N ∉ content_type ->
  get_file_extension lower (Some (content_type ++ 59%N :: params))
  = default (py ".pdf") (extension_map !! ascii_lower content_type)
  /\ get_file_extension lower (Some content_type)
     = default (py ".pdf") (extension_map !! ascii_lower content_type).
Proof.
  intros Hlower Hct Hp Hsemi. unfold get_file_extension, split_char. simpl.
  rewrite !Hlower; [|done|].
  - rewrite ascii_lower_app. simpl.
    rewrite split_char_from_head by (by apply ascii_lower_no_semicolon).
    rewrite split_char_from_whole by (by apply ascii_lower_no_semicolon).
    done.
  - apply Forall_app. split; [done|]. by constructor.
Qed.

Lemma get_file_extension_type_only_witness :
  get_file_extension ascii_lower
    (Some (py "Text/Plain" ++ 59%N :: py " charset=UTF-8"))
  = default (py ".pdf") (extension_map !! ascii_lower (py "Text/Plain"))
  /\ get_file_extension ascii_lower (Some (py "Text/Plain"))
     = default (py ".pdf") (extension_map !! ascii_lower (py "Text/Plain")).
Proof.
  apply (get_file_extension_type_only ascii_lower (py "Text/Plain")
           (py " charset=UTF-8")).
  - intros s _. reflexivity.
  - apply (bool_decide_unpack _). vm_compute. exact I.
  - apply (bool_decide_unpack _). vm_compute. exact I.
  - apply (bool_decide_unpack _). vm_compute. exact I.
Defined.

Example get_file_extension_text_plain :
  get_file_extension ascii_lower
    (Some (py "Text/Plain" ++ 59%N :: py " charset=UTF-8")) = py ".txt".
Proof. vm_compute. reflexivity. Qed.

(** ** The authentication middleware *)

(** The words of a split are not empty and hold no whitespace. *)
Lemma split_ws_from_words (s : str) : forall cur w,
  Forall (fun c => is_space c = false) cur ->
  w ∈ split_ws_from cur s ->
  w <> [] /\ Forall (fun c => is_space c = false) w.
Proof.
  induction s as [|c s IH]; intros cur w Hcur; simpl.
  - destruct cur as [|d cur]; [by intros H%elem_of_nil|].
    by intros ->%list_elem_of_singleton.
  - destruct (is_space c) eqn:Hc.
    + destruct cur as [|d cur]; [by apply IH|].
      intros [->|H]%elem_of_cons; [done|]. by apply (IH []).
    + apply IH. apply Forall_app. split; [done|]. by constructor.
Qed.

Lemma split_ws_words (s w : str) :
  w ∈ split_ws s -> w <> [] /\ Forall (fun c => is_space c = false) w.
Proof. by apply split_ws_from_words. Qed.

(** X21. The authentication middleware hands the request on exactly when
    the Authorization header is present, splits at whitespace into two
    words, the first of which is bearer in lower case and the second the
    value of TOKEN; the response is then the one of the rest of the
    application for the same request.  In every other case its response has
    status 401. *)
Theorem authentication_forwards_iff {R : Type} (lower : str -> str)
  (token_env : option str) (request : Request) (call_next : Request -> R) :
  let response := authentication_middleware lower token_env request call_next in
  ((exists r, response = Downstream r)
   <-> exists authorization scheme token,
         request_authorization request = Some authorization
         /\ split_ws authorization = [scheme; token]
         /\ lower scheme = py "bearer"
         /\ token_env = Some token)
  /\ (forall r, response = Downstream r -> r = call_next request)
  /\ (forall status_code detail headers,
        response = JSONResponse status_code detail headers ->
        status_code = 401).
Proof.
  intros response. subst response. unfold authentication_middleware.
  destruct (request_authorization request) as [authorization|].
  2: { split; [split; [by intros [r ?]|by intros (? & ? & ? & ? & _)]|].
       split; [done|]. by intros ? ? ? [= <- _ _]. }
  destruct (split_ws authorization) as [|scheme [|token [|extra rest]]] eqn:Hs.
  1, 2, 4: split; [split; [by intros [r ?]
                          |by intros (? & ? & ? & [= <-] & Hs' & _);
                           rewrite Hs in Hs']|];
           (split; [done|]); by intros ? ? ? [= <- _ _].
  case_bool_decide as Hscheme; simpl.
  2: { split; [split; [by intros [r ?]|]|].
       - intros (a & sc & tk & [= <-] & Hs' & Hl & _). rewrite Hs in Hs'.
         injection Hs' as <- <-. done.
       - split; [done|]. by intros ? ? ? [= <- _ _]. }
  case_bool_decide as Htoken; simpl.
  - split; [split; [eauto 10|eauto]|]. split; [by intros r [= <-]|done].
  - split; [split; [by intros [r ?]|]|].
    + intros (a & sc & tk & [= <-] & Hs' & _ & ->). rewrite Hs in Hs'.
      injection Hs' as <- <-. done.
    + split; [done|]. by intros ? ? ? [= <- _ _].
Qed.

(** X22. When TOKEN is not set, is empty or holds a whitespace character,
    no request passes the authentication: every response has status 401. *)
Theorem authentication_unusable_token {R : Type} (lower : str -> str)
  (token_env : option str) (request : Request) (call_next : Request -> R) :
  token_env = None
  \/ token_env = Some []
  \/ (exists token c, token_env = Some token /\ c ∈ token /\ is_space c = true) ->
  exists detail headers,
    authentication_middleware lower token_env request call_next
    = JSONResponse 401 detail headers.
Proof.
  intros Hbad. unfold authentication_middleware.
  destruct (request_authorization request) as [authorization|]; [|eauto].
  destruct (split_ws authorization) as [|scheme [|token [|extra rest]]] eqn:Hs;
    eauto.
  destruct (negb (bool_decide (lower scheme = py "bearer"))); [eauto|].
  case_bool_decide as Htoken; simpl; [|eauto].
  exfalso.
  destruct (split_ws_words authorization token) as [Hne Hns];
    [rewrite Hs; right; left|].
  destruct Hbad as [Hb|[Hb|(tk & c & Hb & Hc & Hsp)]]; rewrite Hb in Htoken.
  - done.
  - by injection Htoken as ->.
  - injection Htoken as ->. rewrite Forall_forall in Hns.
    specialize (Hns c Hc). congruence.
Qed.

Lemma authentication_unusable_token_witness :
  exists detail headers,
    authentication_middleware ascii_lower (Some (py "two words"))
      sample_request (fun _ => tt)
    = JSONResponse 401 detail headers.
Proof.
  apply (authentication_unusable_token ascii_lower (Some (py "two words"))
           sample_request (fun _ => tt)).
  right. right. exists (py "two words"), 32%N.
  split; [reflexivity|]. split; [|reflexivity].
  apply (bool_decide_unpack _). vm_compute. exact I.
Defined.

(** ** The webhook middleware *)

Lemma webhook_message_length (url method auth_header pretty_body : str) :
  length (webhook_message url method auth_header pretty_body)
  = 88 + length url + length method + length auth_header + length pretty_body.
Proof.
  unfold webhook_message. rewrite !length_app.
  change (length (py "**Incoming request:**")) with 21.
  change (length (py "**URL:** ")) with 9.
  change (length (py "**Method:** ")) with 12.
  change (length (py "**Authorization:** ")) with 19.
  change (length (py "**Body:**")) with 9.
  change (length (py "```json")) with 7.
  change (length (py "```")) with 3.
  simpl. lia.
Qed.

Lemma truncate_body_length (pretty_body : str) :
  length (truncate_body pretty_body) <= 1515.
Proof.
  unfold truncate_body, max_body_length.
  destruct (Nat.ltb_spec 1500 (length pretty_body)).
  - rewrite length_app, length_take.
    change (length (py "... (truncated)")) with 15. lia.
  - lia.
Qed.

(** X23. The text sent to the webhook has at most 2000 characters, whatever
    the length of the body, of the address and of the headers. *)
Theorem webhook_content_bounded (env : Services) (utf8_ignore : list N -> str)
  (json_dumps : json -> str) (request : Request) :
  length (webhook_content env utf8_ignore json_dumps request) <= 2000.
Proof.
  unfold webhook_content.
  match goal with
  | |- context [2000 <? length ?c] => destruct (Nat.ltb_spec 2000 (length c))
  end; [|done].
  rewrite length_app, length_take. change (length (py "...")) with 3. lia.
Qed.

(** X24. The budget of 1500 characters for the body leaves room for the
    rest: when the address, the method and the Authorization header have no
    more than 397 characters together, the text sent is the whole message,
    with the Authorization header in it and the fence after the body
    closed; the body is cut after 1500 characters and marked as cut. *)
Theorem webhook_message_fits (env : Services) (utf8_ignore : list N -> str)
  (json_dumps : json -> str) (request : Request) :
  let auth_header :=
    default (py "No Authorization header") (request_authorization request) in
  let pretty_body :=
    pretty_body_of env json_dumps (utf8_ignore (request_body request)) in
  length (request_url request) + length (request_method request)
  + length auth_header <= 397 ->
  webhook_content env utf8_ignore json_dumps request
  = py "**Incoming request:**" ++ [LF]
    ++ py "**URL:** " ++ request_url request ++ [LF]
    ++ py "**Method:** " ++ request_method request ++ [LF]
    ++ py "**Authorization:** " ++ auth_header ++ [LF; LF]
    ++ py "**Body:**" ++ [LF] ++ py "```json" ++ [LF]
    ++ (if 1500 <? length pretty_body
        then take 1500 pretty_body ++ py "... (truncated)"
        else pretty_body)
    ++ [LF] ++ py "```".
Proof.
  intros auth_header pretty_body Hlen. unfold webhook_content.
  fold auth_header pretty_body.
  pose proof (webhook_message_length (request_url request)
                (request_method request) auth_header
                (truncate_body pretty_body)) as Hm.
  pose proof (truncate_body_length pretty_body) as Hb.
  destruct (Nat.ltb_spec 2000
              (length (webhook_message (request_url request)
                         (request_method request) auth_header
                         (truncate_body pretty_body)))); [lia|done].
Qed.

Lemma webhook_message_fits_witness :
  webhook_content offline sample_utf8 sample_dumps sample_request
  = py "**Incoming request:**" ++ [LF]
    ++ py "**URL:** " ++ request_url sample_request ++ [LF]
    ++ py "**Method:** " ++ request_method sample_request ++ [LF]
    ++ py "**Authorization:** "
    ++ default (py "No Authorization header")
         (request_authorization sample_request) ++ [LF; LF]
    ++ py "**Body:**" ++ [LF] ++ py "```json" ++ [LF]
    ++ (if 1500 <? length (pretty_body_of offline sample_dumps
                             (sample_utf8 (request_body sample_request)))
        then take 1500 (pretty_body_of offline sample_dumps
                          (sample_utf8 (request_body sample_request)))
             ++ py "... (truncated)"
        else pretty_body_of offline sample_dumps
               (sample_utf8 (request_body sample_request)))
    ++ [LF] ++ py "```".
Proof.
  apply (webhook_message_fits offline sample_utf8 sample_dumps sample_request).
  vm_compute. lia.
Defined.

(** ** The application *)

(** X25. A request that does not pass the authentication is answered with
    status 401 and is not reported to the webhook.  A request that passes
    reaches the router unchanged, and when the address of the webhook is set
    it is reported once, with the text of the webhook middleware. *)
Theorem app_reports_authenticated_requests {R : Type} (lower : str -> str)
  (token_env : option str) (env : Services) (utf8_ignore : list N -> str)
  (json_dumps : json -> str) (webhook_url : option str)
  (router : Request -> R) (request : Request) :
  let response :=
    app lower token_env env utf8_ignore json_dumps webhook_url router request in
  (exists detail headers, response = JSONResponse 401 detail headers)
  \/ (exists authorization scheme token,
        request_authorization request = Some authorization
        /\ split_ws authorization = [scheme; token]
        /\ token_env = Some token
        /\ response
           = Downstream
               (match webhook_url with
                | Some (_ :: _) =>
                    [webhook_content env utf8_ignore json_dumps request]
                | _ => []
                end, router request)).
Proof.
  intros response. subst response. unfold app, authentication_middleware.
  destruct (request_authorization request) as [authorization|]; [|left; eauto].
  destruct (split_ws authorization) as [|scheme [|token [|extra rest]]] eqn:Hs;
    try (left; eauto; fail).
  destruct (negb (bool_decide (lower scheme = py "bearer"))); [left; eauto|].
  case_bool_decide as Htoken; simpl; [|left; eauto].
  right. exists authorization, scheme, token. by rewrite Hs.
Qed.

(** ** The search text after a failed enhancement, and deduplication twice *)

(** X26. When the call of the model for the enhancement raises, the text
    that is embedded for the retrieval is the question twice, with a space
    between the two: the fallback names the question both as raw query and
    as only entity.  For the empty question it is the empty text. *)
Theorem fallback_search_text (env : Services) (q : str) (tr : trace) (e : exn) :
  llm_generate env tr (enhancer_prompt env q) 512 = Raise e ->
  RetrieverAgent._compose_search_query (enhanced_by env q tr)
  = match q with
    | [] => []
    | _ :: _ => q ++ SPACE :: q
    end.
Proof.
  intros H. rewrite (enhance_query_model_down env q tr e H).
  by destruct q.
Qed.

Lemma fallback_search_text_witness :
  RetrieverAgent._compose_search_query
    (enhanced_by offline (py "What is covered?") [])
  = py "What is covered?" ++ SPACE :: py "What is covered?".
Proof.
  apply (fallback_search_text offline (py "What is covered?") []
           service_error).
  reflexivity.
Defined.

(** X27. The loop that removes repeated ids changes nothing when it is run
    on its own result. *)
Theorem unique_loop_idempotent (results : list Match) :
  RetrieverAgent.unique_loop (RetrieverAgent.unique_loop results ∅ []) ∅ []
  = RetrieverAgent.unique_loop results ∅ [].
Proof.
  destruct (unique_loop_inv results ∅ []) as (kept & E & _ & Hn & _).
  { intros x. simpl. rewrite elem_of_empty, elem_of_nil. tauto. }
  { constructor. }
  simpl in E, Hn. rewrite E.
  rewrite (unique_loop_nodup kept ∅ []); [done|done|].
  intros x _. apply not_elem_of_empty.
Qed.
